(** * Concurrency patterns of chapter 7: pool, runner and work

    A shallow embedding of three Go packages,
    - [chapter7/patterns/pool]   (module [ResourcePool]),
    - [chapter7/patterns/runner] (module [Runner]),
    - the [work] package         (module [Work]),
    together with the properties their specification states.

    Go channels are modelled by their buffer, capacity and closed flag
    (module [Chan]).  Calls that run under the pool's mutex are atomic
    transitions; goroutines that really run in parallel (the runner's
    supervisor and worker, the work pool's workers) are modelled as
    labelled transition systems whose labels name the goroutine, or the
    environment event, that takes the next atomic action. *)

From Stdlib Require Import String.
From Stdlib Require Import List Arith Lia Bool ZArith NArith Permutation.
Import ListNotations.

Set Implicit Arguments.

(** Split a conjunction into all its parts. *)
Ltac splits := repeat match goal with |- _ /\ _ => split end.

(** ** Go channels *)

Module Chan.

Record chan (A : Type) : Type := mk {
  buf : list A;       (* values sent and not yet received, oldest first *)
  cap : nat;          (* capacity given to [make] *)
  closed : bool       (* [close] has been called *)
}.

(** [make(chan A, n)] *)
Definition make (A : Type) (n : nat) : chan A := mk [] n false.

(** A receive that must not block: the receive case of a [select]
    that has a [default], or one iteration of [range] over a closed
    channel. *)
Inductive recv (A : Type) : Type :=
| RecvValue (a : A) (c' : chan A)   (* [v, ok := <-c] with [ok = true] *)
| RecvClosed                        (* closed and drained: [ok = false] *)
| RecvNotReady.                     (* open and empty: the receive would block *)

Definition try_recv (A : Type) (c : chan A) : recv A :=
  match buf c with
  | a :: rest => RecvValue a (mk rest (cap c) (closed c))
  | [] => if closed c then RecvClosed A else RecvNotReady A
  end.

(** A send that must not block: the send case of a [select] that has
    a [default]. *)
Inductive send (A : Type) : Type :=
| SendOk (c' : chan A)
| SendNotReady                      (* the buffer is full *)
| SendPanic.                        (* send on a closed channel *)

Definition try_send (A : Type) (a : A) (c : chan A) : send A :=
  if closed c then SendPanic A
  else if length (buf c) <? cap c
       then SendOk (mk (buf c ++ [a]) (cap c) (closed c))
       else SendNotReady A.

(** [close(c)]; closing a closed channel panics ([None]). *)
Definition close (A : Type) (c : chan A) : option (chan A) :=
  if closed c then None else Some (mk (buf c) (cap c) true).

End Chan.

(** ** Package pool *)

Module ResourcePool.

(** Values of Go's [error] interface that the package can see: its own
    [ErrPoolClosed], and any value made by [errors.New]. *)
Inductive error : Type :=
| ErrPoolClosed
| ErrorString (msg : string).

Section Pool.

(** [R]: the (non-nil) [io.Closer] values the pool manages.
    [W]: the state of everything outside the pool that the factory
    and the resources' [Close] methods read and write. *)
Variable R : Type.
Variable W : Type.

(** [func() (io.Closer, error)]: either component may be nil. *)
Definition Factory : Type := W -> (option R * option error) * W.

(** [r.Close()] of a resource: an effect on the outside world and
    an error, possibly nil. *)
Variable rclose : R -> W -> option error * W.

(** [type Pool struct].  The mutex [m] has no field here: [Release]
    and [Close] hold it from entry to return, so each of them is
    one atomic transition. *)
Record Pool : Type := mkPool {
  resources : Chan.chan R;
  factory : Factory;
  closed : bool
}.

(** What has been called so far, oldest first (ghost state). *)
Inductive event : Type :=
| EvFactory (res : option R * option error)
| EvDispose (r : R) (err : option error).

Record State : Type := mkState {
  pool : Pool;
  world : W;
  events : list event
}.

(** [New]: [size] is a [uint], so [size <= 0] is [size = 0]. *)
Definition New (fn : Factory) (size : N) : Pool + error :=
  if (size <=? 0)%N
  then inr (ErrorString "Size value too small.")
  else inl (mkPool (Chan.make R (N.to_nat size)) fn false).

Definition start (p : Pool) (w : W) : State := mkState p w [].

Definition set_resources (c : Chan.chan R) (s : State) : State :=
  mkState (mkPool c (factory (pool s)) (closed (pool s)))
          (world s) (events s).

(** Observations. *)
Definition idle (s : State) : list R := Chan.buf (resources (pool s)).
Definition capacity (s : State) : nat := Chan.cap (resources (pool s)).

Definition is_factory (e : event) : bool :=
  match e with EvFactory _ => true | EvDispose _ _ => false end.

Definition factory_calls (s : State) : nat :=
  length (filter is_factory (events s)).

Fixpoint disposals (es : list event) : list R :=
  match es with
  | [] => []
  | EvDispose r _ :: es' => r :: disposals es'
  | EvFactory _ :: es' => disposals es'
  end.

Definition disposed (s : State) : list R := disposals (events s).

(** [Acquire]. *)
Definition Acquire (s : State) : (option R * option error) * State :=
  match Chan.try_recv (resources (pool s)) with
  | Chan.RecvValue r c' => ((Some r, None), set_resources c' s)
  | Chan.RecvClosed _ => ((None, Some ErrPoolClosed), s)
  | Chan.RecvNotReady _ =>
      let '(res, w') := factory (pool s) (world s) in
      (res, mkState (pool s) w' (events s ++ [EvFactory res]))
  end.

(** [r.Close()], its result dropped. *)
Definition dispose (r : R) (s : State) : State :=
  let '(err, w') := rclose r (world s) in
  mkState (pool s) w' (events s ++ [EvDispose r err]).

(** [Release]; [None] is a run-time panic. *)
Definition Release (r : R) (s : State) : option State :=
  if closed (pool s) then Some (dispose r s)
  else match Chan.try_send r (resources (pool s)) with
       | Chan.SendOk c' => Some (set_resources c' s)
       | Chan.SendNotReady _ => Some (dispose r s)
       | Chan.SendPanic _ => None
       end.

(** [for r := range p.resources { r.Close() }] on a closed channel
    whose buffer holds [pending]: each iteration receives the oldest
    value and disposes of it; the loop ends when the buffer is
    empty. *)
Fixpoint drain (pending : list R) (s : State) : State :=
  match pending with
  | [] => s
  | r :: rest =>
      let c := resources (pool s) in
      drain rest
        (dispose r (set_resources (Chan.mk rest (Chan.cap c) (Chan.closed c)) s))
  end.

(** [Close]; [None] is a run-time panic. *)
Definition Close (s : State) : option State :=
  if closed (pool s) then Some s
  else match Chan.close (resources (pool s)) with
       | None => None
       | Some c' =>
           Some (drain (Chan.buf c')
                   (mkState (mkPool c' (factory (pool s)) true)
                            (world s) (events s)))
       end.

(** Sequences of calls.  Each call is one transition: [Release] and
    [Close] hold the mutex throughout, and the one action of
    [Acquire] on the pool is its receive; the factory it may call
    afterwards touches only the outside world. *)
Inductive op : Type :=
| OpAcquire
| OpRelease (r : R)
| OpClose.

Definition step (o : op) (s : State) : option State :=
  match o with
  | OpAcquire => Some (snd (Acquire s))
  | OpRelease r => Release r s
  | OpClose => Close s
  end.

Fixpoint run (ops : list op) (s : State) : option State :=
  match ops with
  | [] => Some s
  | o :: ops' =>
      match step o s with
      | Some s' => run ops' s'
      | None => None
      end
  end.

(** The states a pool made by [New] can be in. *)
Definition reachable (s : State) : Prop :=
  exists fn size p w ops,
    New fn size = inl p /\ run ops (start p w) = Some s.

(** [n] calls of [Acquire] in a row, with their results. *)
Fixpoint acquire_n (n : nat) (s : State)
  : list (option R * option error) * State :=
  match n with
  | O => ([], s)
  | S n' =>
      let '(res, s1) := Acquire s in
      let '(more, s2) := acquire_n n' s1 in
      (res :: more, s2)
  end.

(** [Release] of each resource of a list, in order. *)
Definition release_all (rs : list R) (s : State) : option State :=
  run (map OpRelease rs) s.

(** *** What every reachable state satisfies *)

Definition consistent (s : State) : Prop :=
  Chan.closed (resources (pool s)) = closed (pool s)
  /\ (closed (pool s) = true -> idle s = [])
  /\ length (idle s) <= capacity s.

Lemma disposals_app (es es' : list event) :
  disposals (es ++ es') = disposals es ++ disposals es'.
Proof.
  induction es as [|[res|r err] es IH]; simpl; auto.
  now rewrite IH.
Qed.

Lemma dispose_pool (r : R) (s : State) : pool (dispose r s) = pool s.
Proof. unfold dispose. now destruct (rclose r (world s)). Qed.

Lemma dispose_disposed (r : R) (s : State) :
  disposed (dispose r s) = disposed s ++ [r].
Proof.
  unfold dispose, disposed. destruct (rclose r (world s)); simpl.
  now rewrite disposals_app.
Qed.

Lemma dispose_factory_calls (r : R) (s : State) :
  factory_calls (dispose r s) = factory_calls s.
Proof.
  unfold dispose, factory_calls. destruct (rclose r (world s)); simpl.
  rewrite filter_app; simpl. now rewrite app_nil_r.
Qed.

Lemma dispose_idle (r : R) (s : State) : idle (dispose r s) = idle s.
Proof. unfold idle. now rewrite dispose_pool. Qed.

Lemma dispose_capacity (r : R) (s : State) :
  capacity (dispose r s) = capacity s.
Proof. unfold capacity. now rewrite dispose_pool. Qed.

Lemma dispose_world (r : R) (s : State) :
  world (dispose r s) = snd (rclose r (world s)).
Proof. unfold dispose. now destruct (rclose r (world s)). Qed.

Lemma dispose_events (r : R) (s : State) :
  events (dispose r s)
  = events s ++ [EvDispose r (fst (rclose r (world s)))].
Proof. unfold dispose. now destruct (rclose r (world s)). Qed.



Lemma drain_pool (pending : list R) (s : State) :
  idle s = pending ->
  pool (drain pending s)
  = mkPool (Chan.mk [] (capacity s) (Chan.closed (resources (pool s))))
           (factory (pool s)) (closed (pool s)).
Proof.
  revert s. induction pending as [|r rest IH]; intros s Hs; simpl.
  - destruct s as [[[b c k] f cl] w es]; unfold idle, capacity in *; simpl in *.
    now subst.
  - rewrite IH.
    + unfold capacity. now rewrite !dispose_pool.
    + now rewrite dispose_idle.
Qed.

Lemma drain_disposed (pending : list R) (s : State) :
  disposed (drain pending s) = disposed s ++ pending.
Proof.
  revert s. induction pending as [|r rest IH]; intros s; simpl.
  - now rewrite app_nil_r.
  - rewrite IH, dispose_disposed. unfold disposed; simpl.
    now rewrite <- app_assoc.
Qed.

Lemma drain_factory_calls (pending : list R) (s : State) :
  factory_calls (drain pending s) = factory_calls s.
Proof.
  revert s. induction pending as [|r rest IH]; intros s; simpl; auto.
  now rewrite IH, dispose_factory_calls.
Qed.

Lemma consistent_start (fn : Factory) (size : N) (p : Pool) (w : W) :
  New fn size = inl p ->
  consistent (start p w) /\ capacity (start p w) = N.to_nat size
  /\ idle (start p w) = [] /\ closed p = false.
Proof.
  unfold New. destruct (size <=? 0)%N; [discriminate|].
  intros [= <-]. unfold consistent, idle, capacity; simpl.
  repeat split; auto. lia.
Qed.

Lemma Acquire_consistent (s : State) :
  consistent s ->
  consistent (snd (Acquire s)) /\ capacity (snd (Acquire s)) = capacity s
  /\ closed (pool (snd (Acquire s))) = closed (pool s).
Proof.
  intros (Hc & He & Hl).
  unfold Acquire, Chan.try_recv.
  destruct s as [[[b c k] f cl] w es];
    unfold consistent, idle, capacity in *; simpl in *.
  destruct b as [|r rest]; simpl.
  - destruct k; simpl.
    + repeat split; auto.
    + destruct (f w) as [res w']; simpl. repeat split; auto.
  - repeat split; auto.
    + intros H. specialize (He H). discriminate.
    + simpl in Hl. lia.
Qed.

Lemma Release_consistent (r : R) (s : State) :
  consistent s ->
  exists s', Release r s = Some s' /\ consistent s'
             /\ capacity s' = capacity s
             /\ closed (pool s') = closed (pool s).
Proof.
  intros (Hc & He & Hl). unfold Release.
  destruct (closed (pool s)) eqn:Hcl.
  - exists (dispose r s). unfold consistent.
    rewrite dispose_idle, dispose_capacity, !dispose_pool, Hcl.
    repeat split; auto.
  - unfold Chan.try_send. rewrite Hc.
    destruct (length (Chan.buf (resources (pool s))) <? Chan.cap (resources (pool s)))
      eqn:Hlt.
    + eexists; split; [reflexivity|].
      apply Nat.ltb_lt in Hlt.
      unfold consistent, idle, capacity, set_resources; simpl.
      rewrite Hcl, length_app; simpl. repeat split; auto; try discriminate. lia.
    + exists (dispose r s). unfold consistent.
      rewrite dispose_idle, dispose_capacity, !dispose_pool, Hcl.
      repeat split; auto.
Qed.

Lemma Close_consistent (s : State) :
  consistent s ->
  exists s', Close s = Some s' /\ consistent s'
             /\ capacity s' = capacity s
             /\ closed (pool s') = true /\ idle s' = [].
Proof.
  intros (Hc & He & Hl). unfold Close.
  destruct (closed (pool s)) eqn:Hcl.
  - exists s. unfold consistent. rewrite Hcl. repeat split; auto.
  - unfold Chan.close. rewrite Hc. eexists; split; [reflexivity|].
    unfold consistent, idle, capacity.
    rewrite drain_pool by reflexivity. simpl.
    repeat split; auto. lia.
Qed.

Lemma step_consistent (o : op) (s : State) :
  consistent s ->
  exists s', step o s = Some s' /\ consistent s'
             /\ capacity s' = capacity s
             /\ (closed (pool s) = true -> closed (pool s') = true).
Proof.
  intros H. destruct o as [|r|]; simpl.
  - destruct (Acquire_consistent H) as (H1 & H2 & H3).
    eexists; split; [reflexivity|]. rewrite H3. auto.
  - destruct (Release_consistent r H) as (s' & H1 & H2 & H3 & H4).
    exists s'. rewrite H4. auto.
  - destruct (Close_consistent H) as (s' & H1 & H2 & H3 & H4 & _).
    exists s'. auto.
Qed.

Lemma run_consistent (ops : list op) (s : State) :
  consistent s ->
  exists s', run ops s = Some s' /\ consistent s'
             /\ capacity s' = capacity s
             /\ (closed (pool s) = true -> closed (pool s') = true).
Proof.
  revert s. induction ops as [|o ops IH]; intros s H; simpl.
  - exists s; auto.
  - destruct (step_consistent o H) as (s1 & -> & H1 & H2 & H3).
    destruct (IH s1 H1) as (s2 & -> & H4 & H5 & H6).
    exists s2. split; [reflexivity|]. split; [assumption|].
    split; [congruence|auto].
Qed.

Lemma reachable_consistent (s : State) : reachable s -> consistent s.
Proof.
  intros (fn & size & p & w & ops & Hn & Hr).
  destruct (consistent_start fn size w Hn) as (H0 & _).
  destruct (run_consistent ops H0) as (s' & Hr' & H & _).
  congruence.
Qed.



(** *** Acquire *)

Lemma Acquire_cached (s : State) (r : R) (rest : list R) :
  idle s = r :: rest ->
  fst (Acquire s) = (Some r, None)
  /\ idle (snd (Acquire s)) = rest
  /\ events (snd (Acquire s)) = events s
  /\ world (snd (Acquire s)) = world s
  /\ capacity (snd (Acquire s)) = capacity s.
Proof.
  unfold Acquire, Chan.try_recv, idle, capacity.
  destruct s as [[[b c k] f cl] w es]; simpl.
  intros ->. simpl. auto.
Qed.

Lemma Acquire_factory (s : State) :
  idle s = [] -> Chan.closed (resources (pool s)) = false ->
  fst (Acquire s) = fst (factory (pool s) (world s))
  /\ world (snd (Acquire s)) = snd (factory (pool s) (world s))
  /\ events (snd (Acquire s))
     = events s ++ [EvFactory (fst (factory (pool s) (world s)))]
  /\ factory_calls (snd (Acquire s)) = S (factory_calls s)
  /\ pool (snd (Acquire s)) = pool s.
Proof.
  unfold Acquire, Chan.try_recv, idle, factory_calls.
  destruct s as [[[b c k] f cl] w es]; simpl.
  intros -> ->. destruct (f w) as [res w']; simpl.
  splits; auto.
  rewrite filter_app, length_app; simpl. lia.
Qed.

Lemma Acquire_drained (s : State) :
  idle s = [] -> Chan.closed (resources (pool s)) = true ->
  fst (Acquire s) = (None, Some ErrPoolClosed) /\ snd (Acquire s) = s.
Proof.
  unfold Acquire, Chan.try_recv, idle.
  destruct s as [[[b c k] f cl] w es]; simpl.
  intros -> ->. auto.
Qed.

(** C1.  [Acquire] in each of the three states of the idle buffer.
    - The buffer holds a resource: the oldest one is removed and
      returned with a nil error; the factory is not called.
    - The buffer is empty and open: the factory is called exactly once
      and its pair (resource, error) is returned as it is.
    - The buffer is closed and drained: [ErrPoolClosed], and nothing
      changes.
    [Acquire] never blocks: it returns in every state. *)
Theorem Acquire_spec (s : State) :
  (forall r rest, idle s = r :: rest ->
     fst (Acquire s) = (Some r, None)
     /\ idle (snd (Acquire s)) = rest
     /\ events (snd (Acquire s)) = events s
     /\ world (snd (Acquire s)) = world s
     /\ capacity (snd (Acquire s)) = capacity s)
  /\ (idle s = [] -> Chan.closed (resources (pool s)) = false ->
      fst (Acquire s) = fst (factory (pool s) (world s))
      /\ world (snd (Acquire s)) = snd (factory (pool s) (world s))
      /\ events (snd (Acquire s))
         = events s ++ [EvFactory (fst (factory (pool s) (world s)))]
      /\ factory_calls (snd (Acquire s)) = S (factory_calls s)
      /\ pool (snd (Acquire s)) = pool s)
  /\ (idle s = [] -> Chan.closed (resources (pool s)) = true ->
      fst (Acquire s) = (None, Some ErrPoolClosed)
      /\ snd (Acquire s) = s)
  /\ (exists res s', Acquire s = (res, s')).
Proof.
  split; [|split; [|split]].
  - intros r rest. apply Acquire_cached.
  - apply Acquire_factory.
  - apply Acquire_drained.
  - destruct (Acquire s) as [res s']. now exists res, s'.
Qed.

(** *** Release *)

(** C8.  [Release r] in a state the pool can be in.
    - The pool is closed: [r] is disposed of at once and the buffer is
      left as it is.  Disposing of [r] is calling [r.Close()]: the
      world afterwards is the one that call leaves, and the call is
      on record with what it returned; the pool itself is untouched.
    - The pool is open and the buffer holds fewer resources than its
      capacity: [r] becomes the newest idle resource and is not
      disposed of; no [Close] method runs, the world is unchanged.
    - The pool is open and the buffer is full: [r] is disposed of, by
      the same call of [r.Close()], and the buffer neither grows nor
      changes.
    [Release] returns in every such state. *)
Theorem Release_spec (r : R) (s : State) :
  reachable s ->
  (closed (pool s) = true ->
     Release r s = Some (dispose r s)
     /\ idle (dispose r s) = idle s
     /\ disposed (dispose r s) = disposed s ++ [r]
     /\ world (dispose r s) = snd (rclose r (world s))
     /\ events (dispose r s)
        = events s ++ [EvDispose r (fst (rclose r (world s)))]
     /\ pool (dispose r s) = pool s)
  /\ (closed (pool s) = false -> length (idle s) < capacity s ->
      exists s', Release r s = Some s'
        /\ idle s' = idle s ++ [r]
        /\ disposed s' = disposed s
        /\ events s' = events s /\ world s' = world s)
  /\ (closed (pool s) = false -> capacity s <= length (idle s) ->
      Release r s = Some (dispose r s)
      /\ idle (dispose r s) = idle s
      /\ capacity (dispose r s) = capacity s
      /\ disposed (dispose r s) = disposed s ++ [r]
      /\ world (dispose r s) = snd (rclose r (world s))
      /\ events (dispose r s)
         = events s ++ [EvDispose r (fst (rclose r (world s)))]
      /\ pool (dispose r s) = pool s)
  /\ (exists s', Release r s = Some s').
Proof.
  intros Hr. pose proof (reachable_consistent Hr) as Hc.
  destruct (Release_consistent r Hc) as (s0 & Hs0 & _).
  destruct Hc as (Hc & _ & _).
  split; [|split; [|split]].
  - intros Hcl. unfold Release. rewrite Hcl.
    rewrite dispose_idle, dispose_disposed, dispose_world, dispose_events,
      dispose_pool.
    splits; reflexivity.
  - intros Hcl Hlt. unfold Release, Chan.try_send. rewrite Hcl, Hc, Hcl.
    apply Nat.ltb_lt in Hlt. unfold idle, capacity in Hlt. rewrite Hlt.
    eexists; split; [reflexivity|]. unfold idle, disposed; simpl. auto.
  - intros Hcl Hge. unfold Release, Chan.try_send. rewrite Hcl, Hc, Hcl.
    apply Nat.ltb_ge in Hge. unfold idle, capacity in Hge. rewrite Hge.
    rewrite dispose_idle, dispose_capacity, dispose_disposed, dispose_world,
      dispose_events, dispose_pool.
    splits; reflexivity.
  - now exists s0.
Qed.

(** *** The warm cache *)

Lemma acquire_n_factory (n : nat) (s : State) :
  idle s = [] -> Chan.closed (resources (pool s)) = false ->
  pool (snd (acquire_n n s)) = pool s
  /\ factory_calls (snd (acquire_n n s)) = factory_calls s + n
  /\ disposed (snd (acquire_n n s)) = disposed s
  /\ length (fst (acquire_n n s)) = n.
Proof.
  revert s. induction n as [|n IH]; intros s Hi Ho; simpl.
  - repeat split; auto.
  - destruct (Acquire_factory s Hi Ho) as (_ & _ & He & Hn & Hp).
    destruct (Acquire s) as [res s1]; simpl in *.
    assert (Hi1 : idle s1 = []) by (unfold idle; now rewrite Hp).
    assert (Ho1 : Chan.closed (resources (pool s1)) = false) by now rewrite Hp.
    destruct (IH s1 Hi1 Ho1) as (H1 & H2 & H3 & H4).
    destruct (acquire_n n s1) as [more s2]; simpl in *.
    repeat split.
    + congruence.
    + lia.
    + rewrite H3. unfold disposed. rewrite He, disposals_app. simpl.
      now rewrite app_nil_r.
    + now rewrite H4.
Qed.

Lemma release_all_fits (rs : list R) (s : State) :
  closed (pool s) = false -> Chan.closed (resources (pool s)) = false ->
  length (idle s) + length rs <= capacity s ->
  exists s', release_all rs s = Some s'
    /\ idle s' = idle s ++ rs
    /\ events s' = events s /\ world s' = world s
    /\ capacity s' = capacity s
    /\ closed (pool s') = false
    /\ Chan.closed (resources (pool s')) = false.
Proof.
  unfold release_all.
  revert s. induction rs as [|r rs IH]; intros s Hcl Hch Hlen; simpl.
  - exists s. rewrite app_nil_r. splits; auto.
  - simpl in Hlen. unfold Release, Chan.try_send. rewrite Hcl, Hch.
    assert (Hlt : (length (Chan.buf (resources (pool s)))
                   <? Chan.cap (resources (pool s))) = true)
      by (apply Nat.ltb_lt; unfold idle, capacity in Hlen; lia).
    rewrite Hlt.
    set (s1 := set_resources _ s).
    destruct (IH s1) as (s' & Hrun & Hidle & Hev & Hw & Hcap & Hc1 & Hc2).
    + exact Hcl.
    + reflexivity.
    + unfold s1, idle, capacity, set_resources in *; simpl.
      rewrite length_app; simpl. lia.
    + exists s'. split; [exact Hrun|].
      rewrite Hidle. unfold s1, idle, set_resources; simpl.
      rewrite <- app_assoc. simpl. splits; auto.
Qed.

Lemma acquire_n_cached (rs rest : list R) (s : State) :
  idle s = rs ++ rest ->
  fst (acquire_n (length rs) s) = map (fun r => (Some r, None)) rs
  /\ idle (snd (acquire_n (length rs) s)) = rest
  /\ events (snd (acquire_n (length rs) s)) = events s
  /\ world (snd (acquire_n (length rs) s)) = world s.
Proof.
  revert s. induction rs as [|r rs IH]; intros s Hi; simpl.
  - auto.
  - destruct (Acquire_cached s Hi) as (H1 & H2 & H3 & H4 & _).
    destruct (Acquire s) as [res s1]; simpl in *.
    destruct (IH s1 H2) as (H5 & H6 & H7 & H8).
    destruct (acquire_n (length rs) s1) as [more s2]; simpl in *.
    repeat split; congruence.
Qed.

(** C7.  A pool of capacity [C] whose buffer is empty and open.  [C]
    calls of [Acquire] in a row call the factory [C] times; once the
    [C] resources [rs] they returned have all been released the
    buffer holds exactly these [C] resources and the factory has
    still been called [C] times; [C] further calls of [Acquire] hand
    the same resources out again and do not call the factory. *)
Theorem warm_cache (C : nat) (s : State) (rs : list R) :
  closed (pool s) = false -> Chan.closed (resources (pool s)) = false ->
  idle s = [] -> capacity s = C ->
  map fst (fst (acquire_n C s)) = map Some rs ->
  factory_calls (snd (acquire_n C s)) = factory_calls s + C
  /\ exists s2,
       release_all rs (snd (acquire_n C s)) = Some s2
       /\ factory_calls s2 = factory_calls s + C
       /\ idle s2 = rs /\ length (idle s2) = C
       /\ disposed s2 = disposed s
       /\ factory_calls (snd (acquire_n C s2)) = factory_calls s + C
       /\ map fst (fst (acquire_n C s2)) = map Some rs
       /\ idle (snd (acquire_n C s2)) = [].
Proof.
  intros Hcl Hch Hi Hcap Hrs.
  destruct (acquire_n_factory C s Hi Hch) as (Hp & Hn & Hd & Hlen).
  assert (HC : length rs = C).
  { rewrite <- Hlen, <- (length_map fst), Hrs. now rewrite length_map. }
  split; [exact Hn|].
  set (s1 := snd (acquire_n C s)) in *.
  destruct (@release_all_fits rs s1) as (s2 & Hrel & Hidle & Hev & Hw & Hcap2 & _).
  - now rewrite Hp.
  - now rewrite Hp.
  - unfold idle, capacity in *. rewrite Hp, Hi. simpl. lia.
  - assert (Hidle2 : idle s2 = rs).
    { rewrite Hidle. unfold idle. rewrite Hp. unfold idle in Hi. now rewrite Hi. }
    assert (Hf2 : factory_calls s2 = factory_calls s + C).
    { unfold factory_calls in *. now rewrite Hev. }
    exists s2. split; [exact Hrel|]. split; [exact Hf2|].
    split; [exact Hidle2|]. split; [now rewrite Hidle2|].
    split; [unfold disposed in *; now rewrite Hev|].
    destruct (@acquire_n_cached rs [] s2) as (H1 & H2 & H3 & H4).
    { now rewrite app_nil_r. }
    rewrite HC in *. split; [|split].
    + unfold factory_calls in *. now rewrite H3.
    + rewrite H1, map_map. simpl. apply map_ext. reflexivity.
    + exact H2.
Qed.

(** *** Sequences of calls *)

Lemma run_closed (ops : list op) (s s' : State) :
  consistent s -> In OpClose ops -> run ops s = Some s' ->
  closed (pool s') = true.
Proof.
  revert s. induction ops as [|o ops IH]; intros s Hc Hin Hrun.
  - destruct Hin.
  - simpl in Hrun.
    destruct (step_consistent o Hc) as (s1 & Hs1 & Hc1 & _ & _).
    rewrite Hs1 in Hrun.
    destruct Hin as [->|Hin].
    + simpl in Hs1.
      destruct (Close_consistent Hc) as (s1' & Hs1' & _ & _ & Hcl & _).
      assert (s1' = s1) by congruence. subst s1'.
      destruct (run_consistent ops Hc1) as (s2 & Hs2 & _ & _ & Hk).
      assert (s2 = s') by congruence. subst s2. auto.
    + eapply IH; eauto.
Qed.

Section Discipline.

(** Resources can be told apart. *)
Variable R_eq_dec : forall x y : R, {x = y} + {x <> y}.

Definition member (r : R) (l : list R) : bool :=
  if in_dec R_eq_dec r l then true else false.

Fixpoint remove_one (r : R) (l : list R) : list R :=
  match l with
  | [] => []
  | x :: l' => if R_eq_dec r x then l' else x :: remove_one r l'
  end.

(** [Acquire] in state [s] will call the factory. *)
Definition from_factory (s : State) : bool :=
  match Chan.try_recv (resources (pool s)) with
  | Chan.RecvNotReady _ => true
  | _ => false
  end.

(** The callers' side of the contract, along a sequence of calls that
    starts in state [s] with the resources [held] in the callers'
    hands: the factory only returns resources that are new (not held,
    idle or disposed of), and a caller only releases a resource it
    holds, which it then holds no more. *)
Fixpoint disciplined (ops : list op) (s : State) (held : list R) : bool :=
  match ops with
  | [] => true
  | OpAcquire :: ops' =>
      match fst (fst (Acquire s)) with
      | None => disciplined ops' (snd (Acquire s)) held
      | Some r =>
          (negb (from_factory s)
           || negb (member r (held ++ idle s ++ disposed s)))
          && disciplined ops' (snd (Acquire s)) (r :: held)
      end
  | OpRelease r :: ops' =>
      member r held
      && match Release r s with
         | Some s' => disciplined ops' s' (remove_one r held)
         | None => false
         end
  | OpClose :: ops' =>
      match Close s with
      | Some s' => disciplined ops' s' held
      | None => false
      end
  end.

Lemma remove_one_perm (r : R) (l : list R) :
  In r l -> Permutation l (r :: remove_one r l).
Proof.
  induction l as [|x l IH]; intros Hin; [destruct Hin|]. simpl.
  destruct (R_eq_dec r x) as [->|Hne]; [reflexivity|].
  destruct Hin as [->|Hin]; [congruence|].
  rewrite perm_swap. now constructor; apply IH.
Qed.

Lemma Acquire_keeps_apart (s : State) (held : list R) (r : R) :
  NoDup (held ++ idle s ++ disposed s) ->
  fst (fst (Acquire s)) = Some r ->
  (negb (from_factory s)
   || negb (member r (held ++ idle s ++ disposed s))) = true ->
  NoDup ((r :: held) ++ idle (snd (Acquire s)) ++ disposed (snd (Acquire s))).
Proof.
  unfold Acquire, from_factory, Chan.try_recv, idle, disposed, member.
  destruct s as [[[b c k] f cl] w es]; simpl.
  destruct b as [|x rest]; simpl.
  - destruct k; simpl; [discriminate|].
    destruct (f w) as [[got err] w']; simpl.
    intros Hnd -> Hfresh. rewrite disposals_app; simpl. rewrite app_nil_r.
    destruct (in_dec R_eq_dec r (held ++ disposals es)); [discriminate|].
    now constructor.
  - intros Hnd [= ->] _.
    eapply Permutation_NoDup; [|exact Hnd].
    symmetry. apply Permutation_middle.
Qed.

Lemma Acquire_none_same (s : State) :
  fst (fst (Acquire s)) = None ->
  idle (snd (Acquire s)) = idle s /\ disposed (snd (Acquire s)) = disposed s.
Proof.
  unfold Acquire, Chan.try_recv, idle, disposed.
  destruct s as [[[b c k] f cl] w es]; simpl.
  destruct b as [|x rest]; simpl; [|discriminate].
  destruct k; simpl; auto.
  destruct (f w) as [[got err] w']; simpl. intros _.
  rewrite disposals_app; simpl. now rewrite app_nil_r.
Qed.

Lemma Release_keeps_apart (s s' : State) (held : list R) (r : R) :
  NoDup (held ++ idle s ++ disposed s) ->
  In r held -> Release r s = Some s' ->
  NoDup (remove_one r held ++ idle s' ++ disposed s').
Proof.
  intros Hnd Hin Hrel.
  assert (Hp : Permutation (held ++ idle s ++ disposed s)
                 (remove_one r held ++ idle s ++ disposed s ++ [r])).
  { rewrite (remove_one_perm r held Hin) at 1. simpl.
    rewrite Permutation_cons_append.
    now rewrite <- !app_assoc. }
  pose proof (Permutation_NoDup Hp Hnd) as Hnd'.
  unfold Release in Hrel.
  destruct (closed (pool s)).
  - injection Hrel as <-. now rewrite dispose_idle, dispose_disposed.
  - unfold Chan.try_send in Hrel.
    destruct (Chan.closed (resources (pool s))); [discriminate|].
    destruct (length (Chan.buf (resources (pool s))) <? Chan.cap (resources (pool s))).
    + injection Hrel as <-. unfold idle, disposed, set_resources; simpl.
      eapply Permutation_NoDup; [|exact Hnd'].
      apply Permutation_app_head. rewrite <- app_assoc.
      apply Permutation_app_head. apply Permutation_app_comm.
    + injection Hrel as <-. now rewrite dispose_idle, dispose_disposed.
Qed.

Lemma Close_keeps_apart (s s' : State) (held : list R) :
  NoDup (held ++ idle s ++ disposed s) ->
  Close s = Some s' ->
  NoDup (held ++ idle s' ++ disposed s').
Proof.
  intros Hnd Hcl. unfold Close in Hcl.
  destruct (closed (pool s)); [now injection Hcl as <-|].
  unfold Chan.close in Hcl.
  destruct (Chan.closed (resources (pool s))); [discriminate|].
  injection Hcl as <-.
  unfold idle at 1. rewrite drain_pool by reflexivity. simpl.
  rewrite drain_disposed. unfold disposed at 1; simpl.
  eapply Permutation_NoDup; [|exact Hnd].
  apply Permutation_app_head. apply Permutation_app_comm.
Qed.

Lemma disciplined_apart (ops : list op) (s s' : State) (held : list R) :
  NoDup (held ++ idle s ++ disposed s) ->
  disciplined ops s held = true ->
  run ops s = Some s' ->
  NoDup (disposed s').
Proof.
  revert s held. induction ops as [|o ops IH]; intros s held Hnd Hd Hrun.
  - injection Hrun as <-.
    apply NoDup_app_remove_l in Hnd. now apply NoDup_app_remove_l in Hnd.
  - destruct o as [|r|]; simpl in Hd, Hrun.
    + destruct (fst (fst (Acquire s))) as [r|] eqn:Hgot.
      * apply andb_prop in Hd as [Hfresh Hd].
        eapply IH; [|exact Hd|exact Hrun].
        now apply Acquire_keeps_apart.
      * destruct (Acquire_none_same s Hgot) as [Hi Hds].
        eapply IH; [|exact Hd|exact Hrun]. now rewrite Hi, Hds.
    + apply andb_prop in Hd as [Hin Hd].
      unfold member in Hin.
      destruct (in_dec R_eq_dec r held) as [Hin'|]; [|discriminate].
      destruct (Release r s) as [s1|] eqn:Hrel; [|discriminate].
      eapply IH; [|exact Hd|exact Hrun].
      eapply Release_keeps_apart; eauto.
    + destruct (Close s) as [s1|] eqn:Hcl; [|discriminate].
      eapply IH; [|exact Hd|exact Hrun].
      eapply Close_keeps_apart; eauto.
Qed.

(** C4, as the code has it.  Whatever sequence of [Acquire], [Release]
    and [Close] is applied to a pool made by [New(fn, size)], every
    call returns and, in the state reached,
    - the idle buffer holds at most [size] resources;
    - if [Close] is one of the calls made, the pool is closed and the
      buffer is empty: nothing enters the buffer after [Close];
    - no resource has been disposed of twice, provided the factory
      only returns new resources and callers only release resources
      they hold. *)
Theorem pool_invariants (fn : Factory) (size : N) (p : Pool) (w : W)
    (ops : list op) :
  New fn size = inl p ->
  exists s,
    run ops (start p w) = Some s
    /\ length (idle s) <= N.to_nat size
    /\ (In OpClose ops -> closed (pool s) = true /\ idle s = [])
    /\ (disciplined ops (start p w) [] = true -> NoDup (disposed s)).
Proof.
  intros Hnew.
  destruct (consistent_start fn size w Hnew) as (Hc & Hcap & Hi & _).
  destruct (run_consistent ops Hc) as (s & Hrun & Hcs & Hcaps & _).
  exists s. split; [exact Hrun|]. split; [|split].
  - destruct Hcs as (_ & _ & Hl). lia.
  - intros Hin. pose proof (run_closed ops Hc Hin Hrun) as Hcl.
    destruct Hcs as (_ & He & _). auto.
  - intros Hd. eapply disciplined_apart; [|exact Hd|exact Hrun].
    rewrite Hi. simpl. constructor.
Qed.

End Discipline.

End Pool.

Arguments OpAcquire {R}.
Arguments OpClose {R}.

(** *** Close *)

Lemma Close_first (R W : Type) (rclose : R -> W -> option error * W)
    (s : State R W) :
  closed (pool s) = false -> Chan.closed (resources (pool s)) = false ->
  exists s',
    Close rclose s = Some s'
    /\ pool s' = mkPool (Chan.mk [] (capacity s) true) (factory (pool s)) true
    /\ disposed s' = disposed s ++ idle s
    /\ factory_calls s' = factory_calls s.
Proof.
  intros Hcl Hch. unfold Close, Chan.close. rewrite Hcl, Hch.
  eexists; split; [reflexivity|]. split; [|split].
  - now rewrite drain_pool.
  - now rewrite drain_disposed.
  - now rewrite drain_factory_calls.
Qed.



(** *** The driver's pool

    The resources of the driver program are [dbConnection]s, told
    apart by their [ID]; the outside world is its [idCounter]. *)

(** [int32] arithmetic wraps around. *)
Definition wrap32 (z : Z) : Z := ((z + 2 ^ 31) mod 2 ^ 32 - 2 ^ 31)%Z.

(** [createConnection]: [id := atomic.AddInt32(&idCounter, 1)]. *)
Definition createConnection : Factory Z Z :=
  fun idCounter =>
    let id := wrap32 (idCounter + 1) in ((Some id, None), id).

(** The [Close] method of [dbConnection] returns nil. *)
Definition connClose : Z -> Z -> option error * Z :=
  fun _ idCounter => (None, idCounter).


(** [pool.New(createConnection, pooledResources)] *)
Definition pooledResources : N := 2.

Definition driverPool : Pool Z Z :=
  mkPool (Chan.make Z 2) createConnection false.

(** The state after a sequence of calls on the driver's pool. *)
Definition after (ops : list (op Z)) : State Z Z :=
  match run connClose ops (start driverPool 0%Z) with
  | Some s => s
  | None => start driverPool 0%Z
  end.

Lemma after_reachable (ops : list (op Z)) (s : State Z Z) :
  run connClose ops (start driverPool 0%Z) = Some s ->
  reachable connClose s.
Proof.
  intros H. exists createConnection, pooledResources, driverPool, 0%Z, ops.
  split; [reflexivity|exact H].
Qed.

Lemma Acquire_spec_witness :
  (fst (Acquire (after [OpAcquire; OpRelease 1%Z])) = (Some 1%Z, None)
   /\ idle (snd (Acquire (after [OpAcquire; OpRelease 1%Z]))) = [])
  /\ (fst (Acquire (after [])) = (Some 1%Z, None)
      /\ factory_calls (snd (Acquire (after []))) = 1)
  /\ fst (Acquire (after [OpClose])) = (None, Some ErrPoolClosed).
Proof.
  split; [|split].
  - destruct (Acquire_spec (after [OpAcquire; OpRelease 1%Z]))
      as (H & _).
    destruct (H 1%Z [] eq_refl) as (H1 & H2 & _). split; assumption.
  - destruct (Acquire_spec (after [])) as (_ & H & _).
    destruct (H eq_refl eq_refl) as (H1 & _ & _ & H2 & _).
    split; [exact H1|exact H2].
  - destruct (Acquire_spec (after [OpClose])) as (_ & _ & H & _).
    destruct (H eq_refl eq_refl) as (H1 & _). exact H1.
Defined.

Lemma Release_spec_witness :
  Release connClose 9%Z (after [OpClose])
    = Some (dispose connClose 9%Z (after [OpClose]))
  /\ (exists s', Release connClose 9%Z (after []) = Some s'
                 /\ idle s' = [9%Z] /\ disposed s' = [])
  /\ Release connClose 9%Z (after [OpRelease 7%Z; OpRelease 8%Z])
     = Some (dispose connClose 9%Z (after [OpRelease 7%Z; OpRelease 8%Z])).
Proof.
  split; [|split].
  - destruct (@Release_spec Z Z connClose 9%Z (after [OpClose])) as (H & _).
    + now apply (@after_reachable [OpClose]).
    + destruct (H eq_refl) as (H1 & _). exact H1.
  - destruct (@Release_spec Z Z connClose 9%Z (after [])) as (_ & H & _).
    + now apply (@after_reachable []).
    + destruct H as (s' & H1 & H2 & H3 & _);
        [reflexivity|vm_compute; lia|].
      exists s'. splits; assumption.
  - destruct (@Release_spec Z Z connClose 9%Z
                (after [OpRelease 7%Z; OpRelease 8%Z])) as (_ & _ & H & _).
    + now apply (@after_reachable [OpRelease 7%Z; OpRelease 8%Z]).
    + destruct H as (H1 & _); [reflexivity|vm_compute; lia|]. exact H1.
Defined.

Lemma warm_cache_witness :
  factory_calls (snd (acquire_n 2 (after []))) = 2
  /\ exists s2,
       release_all connClose [1%Z; 2%Z] (snd (acquire_n 2 (after [])))
       = Some s2
       /\ idle s2 = [1%Z; 2%Z]
       /\ factory_calls (snd (acquire_n 2 s2)) = 2.
Proof.
  destruct (@warm_cache Z Z connClose 2 (after []) [1%Z; 2%Z])
    as (H1 & s2 & H2 & _ & H3 & _ & _ & H4 & _);
    try reflexivity.
  split; [exact H1|]. exists s2. splits; assumption.
Defined.


Lemma pool_invariants_witness :
  exists s,
    run connClose [OpAcquire; OpAcquire; OpRelease 1%Z; OpClose; OpRelease 2%Z]
        (start driverPool 0%Z) = Some s
    /\ idle s = []
    /\ NoDup (disposed s).
Proof.
  destruct (@pool_invariants Z Z connClose Z.eq_dec createConnection
              pooledResources driverPool 0%Z
              [OpAcquire; OpAcquire; OpRelease 1%Z; OpClose; OpRelease 2%Z]
              eq_refl) as (s & H1 & _ & H2 & H3).
  exists s. split; [exact H1|]. split.
  - apply H2. simpl. auto.
  - apply H3. vm_compute. reflexivity.
Defined.

(** C4 as it is stated fails: nothing in the pool stops a caller from
    releasing a resource twice.  On the driver's pool of capacity 2 a
    caller acquires connection 1 and releases it twice; both releases
    put it into the buffer, and [Close] then disposes of connection 1
    twice. *)
Lemma double_release_disposed_twice :
  ~ (forall (fn : Factory Z Z) (size : N) (p : Pool Z Z) (w : Z)
            (ops : list (op Z)) (s : State Z Z),
       New fn size = inl p ->
       run connClose ops (start p w) = Some s ->
       length (idle s) <= N.to_nat size
       /\ NoDup (disposed s)
       /\ (In OpClose ops -> idle s = [])).
Proof.
  intros H.
  destruct (H createConnection pooledResources driverPool 0%Z
              [OpAcquire; OpRelease 1%Z; OpRelease 1%Z; OpClose] _
              eq_refl eq_refl) as (_ & Hnd & _).
  vm_compute in Hnd. inversion Hnd as [|x l Hin _]; subst.
  apply Hin. now left.
Qed.

(** ** Further properties of the pool *)

Section PoolFacts.

Variable R : Type.
Variable W : Type.
Variable rclose : R -> W -> option error * W.

(** *** A closed pool *)




(** *** Where released resources go *)

(** The resources given to [Release] along a sequence of calls. *)
Fixpoint released (ops : list (op R)) : list R :=
  match ops with
  | [] => []
  | OpRelease r :: ops' => r :: released ops'
  | _ :: ops' => released ops'
  end.

(** The resource the next [Acquire] takes from the buffer, if any. *)
Definition cached (s : State R W) : list R :=
  match Chan.try_recv (resources (pool s)) with
  | Chan.RecvValue r _ => [r]
  | _ => []
  end.

(** The resources [Acquire] took from the buffer along a sequence of
    calls that starts in [s]. *)
Fixpoint reused (ops : list (op R)) (s : State R W) : list R :=
  match ops with
  | [] => []
  | o :: ops' =>
      match o with OpAcquire => cached s | _ => [] end
      ++ match step rclose o s with
         | Some s' => reused ops' s'
         | None => []
         end
  end.

Lemma step_conserves (o : op R) (s s' : State R W) :
  step rclose o s = Some s' ->
  Permutation (released [o] ++ idle s ++ disposed s)
              (match o with OpAcquire => cached s | _ => [] end
               ++ idle s' ++ disposed s').
Proof.
  destruct o as [|r|]; simpl; intros Hstep.
  - injection Hstep as <-.
    unfold Acquire, cached, Chan.try_recv, idle, disposed.
    destruct s as [[[b c k] f cl] w es]; simpl.
    destruct b as [|x rest]; simpl; [|reflexivity].
    destruct k; simpl; [reflexivity|].
    destruct (f w) as [res w']; simpl.
    rewrite disposals_app. simpl. now rewrite app_nil_r.
  - unfold Release in Hstep.
    destruct (closed (pool s)).
    + injection Hstep as <-. rewrite dispose_idle, dispose_disposed.
      rewrite Permutation_cons_append. now rewrite <- !app_assoc.
    + unfold Chan.try_send in Hstep.
      destruct (Chan.closed (resources (pool s))); [discriminate|].
      destruct (length (Chan.buf (resources (pool s)))
                <? Chan.cap (resources (pool s))).
      * injection Hstep as <-. unfold idle, disposed; simpl.
        rewrite <- app_assoc. simpl.
        apply Permutation_middle.
      * injection Hstep as <-. rewrite dispose_idle, dispose_disposed.
        rewrite Permutation_cons_append. now rewrite <- !app_assoc.
  - unfold Close in Hstep.
    destruct (closed (pool s)); [now injection Hstep as <-|].
    unfold Chan.close in Hstep.
    destruct (Chan.closed (resources (pool s))); [discriminate|].
    injection Hstep as <-.
    unfold idle at 2. rewrite drain_pool by reflexivity. simpl.
    rewrite drain_disposed. unfold disposed at 2; simpl.
    apply Permutation_app_comm.
Qed.

Lemma run_conserves (ops : list (op R)) (s s' : State R W) :
  run rclose ops s = Some s' ->
  Permutation (released ops ++ idle s ++ disposed s)
              (reused ops s ++ idle s' ++ disposed s').
Proof.
  revert s. induction ops as [|o ops IH]; intros s Hrun; simpl in Hrun.
  - injection Hrun as <-. reflexivity.
  - destruct (step rclose o s) as [s1|] eqn:Hstep; [|discriminate].
    pose proof (@step_conserves o s s1 Hstep) as H1.
    pose proof (IH s1 Hrun) as H2.
    cbn [reused]. rewrite Hstep.
    replace (released (o :: ops)) with (released [o] ++ released ops)
      by (destruct o; reflexivity).
    transitivity (released ops ++ released [o] ++ idle s ++ disposed s).
    { rewrite !app_assoc. apply Permutation_app_tail.
      apply Permutation_app_tail. apply Permutation_app_comm. }
    rewrite H1.
    transitivity ((match o with OpAcquire => cached s | _ => [] end)
                    ++ released ops ++ idle s1 ++ disposed s1).
    { rewrite !app_assoc. apply Permutation_app_tail.
      apply Permutation_app_tail. apply Permutation_app_comm. }
    rewrite <- app_assoc. apply Permutation_app_head. exact H2.
Qed.

(** X2.  Nothing is lost and nothing is doubled inside the pool.
    After any sequence of calls on a pool made by [New], the
    resources that were released are, counted with multiplicity,
    exactly those that [Acquire] handed out again from the buffer,
    those still idle, and those disposed of.  In particular a
    resource is only disposed of if it was released. *)
Theorem released_resources_accounted (fn : Factory R W) (size : N)
    (p : Pool R W) (w : W) (ops : list (op R)) (s : State R W) :
  New fn size = inl p ->
  run rclose ops (start p w) = Some s ->
  Permutation (released ops)
              (reused ops (start p w) ++ idle s ++ disposed s).
Proof.
  intros Hnew Hrun.
  destruct (consistent_start fn size w Hnew) as (_ & _ & Hi & _).
  pose proof (@run_conserves ops _ _ Hrun) as H.
  rewrite Hi in H. unfold disposed at 1 in H. simpl in H.
  now rewrite app_nil_r in H.
Qed.

(** *** Capacity bounds the cache, not the callers *)

(** X3.  Acquisition is not capped by the capacity: on a pool made by
    [New], whatever its size, [n] calls of [Acquire] with no
    [Release] in between call the factory [n] times and leave the
    buffer empty. *)
Theorem acquire_not_capped (fn : Factory R W) (size : N) (p : Pool R W)
    (w : W) (n : nat) :
  New fn size = inl p ->
  factory_calls (snd (acquire_n n (start p w))) = n
  /\ length (fst (acquire_n n (start p w))) = n
  /\ idle (snd (acquire_n n (start p w))) = []
  /\ capacity (snd (acquire_n n (start p w))) = N.to_nat size.
Proof.
  intros Hnew.
  destruct (consistent_start fn size w Hnew) as ((Hch & _) & Hcap & Hi & Hcl).
  assert (Hopen : Chan.closed (resources (pool (start p w))) = false)
    by (rewrite Hch; exact Hcl).
  destruct (acquire_n_factory n (start p w) Hi Hopen) as (Hp & Hn & _ & Hlen).
  unfold idle, capacity in *. rewrite Hp. splits; auto.
Qed.

Lemma release_all_overflow (rs : list R) (s : State R W) :
  consistent s -> closed (pool s) = false ->
  exists s',
    release_all rclose rs s = Some s'
    /\ consistent s' /\ closed (pool s') = false
    /\ idle s' = idle s ++ firstn (capacity s - length (idle s)) rs
    /\ disposed s' = disposed s ++ skipn (capacity s - length (idle s)) rs
    /\ factory_calls s' = factory_calls s
    /\ capacity s' = capacity s.
Proof.
  unfold release_all.
  revert s. induction rs as [|r rs IH]; intros s Hc Hcl.
  - exists s. simpl. rewrite firstn_nil, skipn_nil, !app_nil_r. splits; auto.
  - destruct (Release_consistent rclose r Hc)
      as (s1 & Hs1 & Hc1 & Hcap1 & Hcl1).
    rewrite Hcl in Hcl1.
    destruct (IH s1 Hc1 Hcl1) as (s' & Hrun & Hc' & Hcl' & Hi & Hd & Hf & Hk).
    exists s'. cbn [map run step]. rewrite Hs1.
    split; [exact Hrun|]. split; [exact Hc'|]. split; [exact Hcl'|].
    rewrite Hi, Hd, Hf, Hk, Hcap1.
    destruct Hc as (Hch & _ & Hlen).
    unfold Release, Chan.try_send in Hs1. rewrite Hcl, Hch, Hcl in Hs1.
    destruct (length (Chan.buf (resources (pool s)))
              <? Chan.cap (resources (pool s))) eqn:Hlt.
    + injection Hs1 as <-. apply Nat.ltb_lt in Hlt.
      unfold idle, capacity, disposed, factory_calls in *. simpl.
      rewrite length_app. simpl.
      destruct (Chan.cap (resources (pool s))
                - length (Chan.buf (resources (pool s)))) as [|m] eqn:Hm;
        [lia|].
      replace (Chan.cap (resources (pool s))
               - (length (Chan.buf (resources (pool s))) + 1)) with m by lia.
      simpl. rewrite <- app_assoc. simpl. splits; auto.
    + injection Hs1 as <-. apply Nat.ltb_ge in Hlt.
      rewrite dispose_idle, dispose_disposed, dispose_factory_calls.
      unfold idle, capacity in *.
      replace (Chan.cap (resources (pool s))
               - length (Chan.buf (resources (pool s)))) with 0 by lia.
      simpl. rewrite <- app_assoc. simpl. splits; auto.
Qed.

Lemma release_all_world (rs : list R) (s s' : State R W) :
  consistent s -> closed (pool s) = false ->
  release_all rclose rs s = Some s' ->
  world s'
  = fold_left (fun w r => snd (rclose r w))
              (skipn (capacity s - length (idle s)) rs) (world s).
Proof.
  unfold release_all.
  revert s. induction rs as [|r rs IH]; intros s Hc Hcl Hrun.
  - simpl in Hrun. injection Hrun as <-. now rewrite skipn_nil.
  - destruct (Release_consistent rclose r Hc)
      as (s1 & Hs1 & Hc1 & Hcap1 & Hcl1).
    rewrite Hcl in Hcl1.
    cbn [map run step] in Hrun. rewrite Hs1 in Hrun.
    rewrite (IH s1 Hc1 Hcl1 Hrun), Hcap1.
    destruct Hc as (Hch & _ & Hlen).
    unfold Release, Chan.try_send in Hs1. rewrite Hcl, Hch, Hcl in Hs1.
    destruct (length (Chan.buf (resources (pool s)))
              <? Chan.cap (resources (pool s))) eqn:Hlt.
    + injection Hs1 as <-. apply Nat.ltb_lt in Hlt.
      unfold idle, capacity in *. simpl.
      rewrite length_app. simpl.
      destruct (Chan.cap (resources (pool s))
                - length (Chan.buf (resources (pool s)))) as [|m] eqn:Hm;
        [lia|].
      replace (Chan.cap (resources (pool s))
               - (length (Chan.buf (resources (pool s))) + 1)) with m by lia.
      reflexivity.
    + injection Hs1 as <-. apply Nat.ltb_ge in Hlt.
      rewrite dispose_idle, dispose_world.
      unfold idle, capacity in *.
      replace (Chan.cap (resources (pool s))
               - length (Chan.buf (resources (pool s)))) with 0 by lia.
      reflexivity.
Qed.

(** X4.  Overflow.  When resources are released one after the other
    to an open pool, the buffer takes them in order until it is full
    and every later one is disposed of, in order: with [k] free
    places, the first [k] are cached and the rest are disposed of,
    which is to say that their [Close] methods are called, in that
    order, and those of the cached ones are not. *)
Theorem release_overflow (rs : list R) (s : State R W) :
  reachable rclose s -> closed (pool s) = false ->
  exists s',
    release_all rclose rs s = Some s'
    /\ idle s' = idle s ++ firstn (capacity s - length (idle s)) rs
    /\ disposed s' = disposed s ++ skipn (capacity s - length (idle s)) rs
    /\ length (idle s') <= capacity s
    /\ factory_calls s' = factory_calls s
    /\ world s'
       = fold_left (fun w r => snd (rclose r w))
                   (skipn (capacity s - length (idle s)) rs) (world s).
Proof.
  intros Hr Hcl.
  destruct (release_all_overflow rs (reachable_consistent Hr) Hcl)
    as (s' & H1 & (_ & _ & Hlen) & _ & H2 & H3 & H4 & H5).
  exists s'. splits; auto.
  - now rewrite <- H5.
  - apply release_all_world; auto. apply (reachable_consistent Hr).
Qed.

End PoolFacts.


Lemma released_resources_accounted_witness :
  Permutation
    (released [OpAcquire; OpRelease 1%Z; OpAcquire; OpRelease 1%Z;
               OpRelease 5%Z; OpRelease 6%Z; OpClose])
    (reused connClose
            [OpAcquire; OpRelease 1%Z; OpAcquire; OpRelease 1%Z;
             OpRelease 5%Z; OpRelease 6%Z; OpClose]
            (start driverPool 0%Z)
     ++ idle (after [OpAcquire; OpRelease 1%Z; OpAcquire; OpRelease 1%Z;
                     OpRelease 5%Z; OpRelease 6%Z; OpClose])
     ++ disposed (after [OpAcquire; OpRelease 1%Z; OpAcquire; OpRelease 1%Z;
                         OpRelease 5%Z; OpRelease 6%Z; OpClose])).
Proof.
  apply (@released_resources_accounted Z Z connClose createConnection
           pooledResources driverPool 0%Z).
  - reflexivity.
  - reflexivity.
Defined.

Lemma acquire_not_capped_witness :
  factory_calls (snd (acquire_n 3 (start driverPool 0%Z))) = 3
  /\ idle (snd (acquire_n 3 (start driverPool 0%Z))) = [].
Proof.
  assert (Hnew : New createConnection pooledResources = inl driverPool)
    by reflexivity.
  destruct (@acquire_not_capped Z Z createConnection pooledResources
              driverPool 0%Z 3 Hnew) as (H1 & _ & H2 & _).
  split; [exact H1|exact H2].
Defined.

Lemma release_overflow_witness :
  exists s',
    release_all connClose [7%Z; 8%Z; 9%Z] (after []) = Some s'
    /\ idle s' = [7%Z; 8%Z]
    /\ disposed s' = [9%Z].
Proof.
  assert (Hr : reachable connClose (after []))
    by (now apply (@after_reachable [])).
  assert (Hopen : closed (pool (after [])) = false)
    by (vm_compute; reflexivity).
  destruct (release_overflow [7%Z; 8%Z; 9%Z] Hr Hopen)
    as (s' & H1 & H2 & H3 & _).
  exists s'. split; [exact H1|].
  split; [rewrite H2|rewrite H3]; vm_compute; reflexivity.
Defined.

(** *** The driver program

    [main] starts [maxGoroutines] goroutines, each running
    [performQueries] on the shared pool, waits for all of them and
    closes the pool. *)

Definition maxGoroutines : nat := 25.

(** Where one call of [performQueries] stands. *)
Inductive query : Type :=
| QStart                 (* next: [p.Acquire()] *)
| QHolding (conn : Z)    (* holds [conn]; the deferred [p.Release(conn)] is next *)
| QDone.                 (* has returned *)

Record Driver : Type := mkDriver {
  shared : State Z Z;      (* the pool, and [idCounter] *)
  queries : list query
}.

(** The list [qs] with [x] at index [q]. *)
Fixpoint set_query (q : nat) (x : query) (qs : list query) : list query :=
  match qs, q with
  | [], _ => []
  | _ :: qs', O => x :: qs'
  | y :: qs', S q' => y :: set_query q' x qs'
  end.

(** Which query goroutine takes its next action. *)
Inductive dlabel : Type :=
| DAcquire (q : nat)
| DRelease (q : nat).

(** One action of [performQueries].  After [Acquire]: an error is
    logged and the function returns; a nil connection with a nil
    error makes the type assertion on [conn] panic ([None]). *)
Definition dstep (l : dlabel) (d : Driver) : option Driver :=
  match l with
  | DAcquire q =>
      match nth_error (queries d) q with
      | Some QStart =>
          match snd (fst (Acquire (shared d))),
                fst (fst (Acquire (shared d))) with
          | Some _, _ =>
              Some (mkDriver (snd (Acquire (shared d)))
                             (set_query q QDone (queries d)))
          | None, Some conn =>
              Some (mkDriver (snd (Acquire (shared d)))
                             (set_query q (QHolding conn) (queries d)))
          | None, None => None
          end
      | _ => None
      end
  | DRelease q =>
      match nth_error (queries d) q with
      | Some (QHolding conn) =>
          match Release connClose conn (shared d) with
          | Some s' => Some (mkDriver s' (set_query q QDone (queries d)))
          | None => None
          end
      | _ => None
      end
  end.

Fixpoint drun (ls : list dlabel) (d : Driver) : option Driver :=
  match ls with
  | [] => Some d
  | l :: ls' =>
      match dstep l d with
      | Some d' => drun ls' d'
      | None => None
      end
  end.

(** [main] up to the start of the goroutines; [idCounter] is zero. *)
Definition driver_init : option Driver :=
  match New createConnection pooledResources with
  | inl p => Some (mkDriver (start p 0%Z) (repeat QStart maxGoroutines))
  | inr _ => None
  end.

Definition is_done (x : query) : bool :=
  match x with QDone => true | _ => false end.

(** [main]: the goroutines run in the order [ls]; [wg.Wait()] returns
    once every one of them is done; then [p.Close()].  [None]: a
    panic, or [main] still waiting. *)
Definition driver_main (ls : list dlabel) : option (State Z Z) :=
  match driver_init with
  | Some d0 =>
      match drun ls d0 with
      | Some d =>
          if forallb is_done (queries d)
          then Close connClose (shared d)
          else None
      | None => None
      end
  | None => None
  end.

(** The connections held by the queries. *)
Definition holding_of (x : query) : list Z :=
  match x with QHolding conn => [conn] | _ => [] end.

Definition holding (qs : list query) : list Z := flat_map holding_of qs.

(** The queries that have called [Acquire]. *)
Definition started_of (x : query) : nat :=
  match x with QStart => 0 | _ => 1 end.

Fixpoint started (qs : list query) : nat :=
  match qs with
  | [] => 0
  | x :: qs' => started_of x + started qs'
  end.

(** The connections created so far: [ID]s 1 to [n]. *)
Definition created (n : nat) : list Z := map Z.of_nat (seq 1 n).

Lemma wrap32_small (z : Z) : (0 <= z < 2 ^ 31)%Z -> wrap32 z = z.
Proof.
  intros H. unfold wrap32.
  change (2 ^ 31)%Z with 2147483648%Z in *.
  change (2 ^ 32)%Z with 4294967296%Z.
  rewrite Z.mod_small; lia.
Qed.

Lemma set_query_length (q : nat) (x : query) (qs : list query) :
  length (set_query q x qs) = length qs.
Proof.
  revert q. induction qs as [|y qs IH]; intros [|q]; simpl; auto.
Qed.

Lemma set_query_holding (q : nat) (x old : query) (qs : list query) :
  nth_error qs q = Some old ->
  Permutation (holding_of old ++ holding (set_query q x qs))
              (holding_of x ++ holding qs).
Proof.
  revert q. induction qs as [|y qs IH]; intros [|q] H; simpl in *;
    try discriminate.
  - injection H as ->. unfold holding; simpl.
    rewrite !app_assoc. apply Permutation_app_tail, Permutation_app_comm.
  - specialize (IH q H). unfold holding in *; simpl.
    rewrite (Permutation_app_swap_app (holding_of old)).
    rewrite (Permutation_app_swap_app (holding_of x)).
    now apply Permutation_app_head.
Qed.

Lemma set_query_started (q : nat) (x old : query) (qs : list query) :
  nth_error qs q = Some old ->
  started_of old + started (set_query q x qs) = started_of x + started qs.
Proof.
  revert q. induction qs as [|y qs IH]; intros [|q] H; simpl in *;
    try discriminate.
  - injection H as ->. lia.
  - specialize (IH q H). lia.
Qed.

Lemma started_le_length (qs : list query) : started qs <= length qs.
Proof.
  induction qs as [|x qs IH]; simpl; auto. destruct x; simpl; lia.
Qed.

Lemma all_done_holding (qs : list query) :
  forallb is_done qs = true -> holding qs = [] /\ started qs = length qs.
Proof.
  induction qs as [|x qs IH]; simpl; auto.
  intros H. apply andb_prop in H as [Hx Hqs].
  destruct (IH Hqs) as [H1 H2].
  destruct x; try discriminate. unfold holding in *; simpl. auto.
Qed.

Lemma created_snoc (n : nat) : created (S n) = created n ++ [Z.of_nat (S n)].
Proof. unfold created. now rewrite seq_S, map_app. Qed.

Lemma created_NoDup (n : nat) : NoDup (created n).
Proof.
  unfold created. apply Finite.Injective_map_NoDup.
  - intros x y. apply Nat2Z.inj.
  - apply seq_NoDup.
Qed.

(** What every state of the driver satisfies. *)
Record DInv (d : Driver) : Prop := mkDInv {
  dinv_consistent : consistent (shared d);
  dinv_open : closed (pool (shared d)) = false;
  dinv_factory : factory (pool (shared d)) = createConnection;
  dinv_counter : world (shared d) = Z.of_nat (factory_calls (shared d));
  dinv_calls : factory_calls (shared d) <= started (queries d);
  dinv_first : started (queries d) = 0 \/ 1 <= factory_calls (shared d);
  dinv_length : length (queries d) = maxGoroutines;
  dinv_perm : Permutation (created (factory_calls (shared d)))
                (holding (queries d) ++ idle (shared d)
                 ++ disposed (shared d));
  dinv_capacity : capacity (shared d) = N.to_nat pooledResources
}.

Lemma driver_init_DInv (d : Driver) : driver_init = Some d -> DInv d.
Proof.
  unfold driver_init. simpl. intros [= <-].
  constructor; simpl; auto; try reflexivity.
  unfold consistent, idle, capacity; simpl. splits; auto. lia.
Qed.

Lemma dstep_DInv (l : dlabel) (d d' : Driver) :
  DInv d -> dstep l d = Some d' -> DInv d'.
Proof.
  intros [Hc Ho Hf Hw Hn H1 Hl Hp Hcap] Hstep.
  destruct d as [s qs]. simpl in *.
  destruct l as [q|q]; simpl in Hstep.
  - (* Acquire *)
    destruct (nth_error qs q) as [[| |]|] eqn:Hq; try discriminate.
    pose proof (set_query_started q QDone qs Hq) as HsD.
    pose proof (started_le_length (set_query q QDone qs)) as HleD.
    rewrite set_query_length in HleD.
    destruct (Acquire_consistent Hc) as (Hc' & Hcap' & Hcl').
    destruct Hc as (Hch & _ & _). rewrite Ho in Hch.
    destruct (idle s) as [|r rest] eqn:Hi.
    + (* a new connection *)
      destruct (Acquire_factory s Hi Hch) as (Hres & Hw' & He & Hn' & Hp').
      rewrite Hf in Hres, Hw'. simpl in Hres, Hw'.
      unfold maxGoroutines in *.
      assert (Hsmall : wrap32 (world s + 1) = Z.of_nat (S (factory_calls s))).
      { rewrite wrap32_small; rewrite Hw; simpl in HsD.
        - lia.
        - change (2 ^ 31)%Z with 2147483648%Z. lia. }
      rewrite Hres in Hstep. simpl in Hstep. injection Hstep as <-.
      pose proof (set_query_started q (QHolding (wrap32 (world s + 1))) qs Hq)
        as Hs1.
      pose proof (set_query_holding q (QHolding (wrap32 (world s + 1))) qs Hq)
        as Hh1.
      simpl in Hs1, Hh1.
      constructor; simpl; rewrite ?Hn', ?Hcl', ?Hcap', ?Hp'; auto.
      * congruence.
      * lia.
      * right. lia.
      * now rewrite set_query_length.
      * unfold idle, disposed in *. rewrite Hp', He, Hi, disposals_app.
        simpl. rewrite app_nil_r. rewrite Hh1, created_snoc, Hsmall.
        simpl in Hp. rewrite Hp. simpl.
        rewrite <- Permutation_cons_append. reflexivity.
    + (* a cached connection *)
      destruct (Acquire_cached s Hi) as (Hres & Hi' & He & Hw' & _).
      rewrite Hres in Hstep. simpl in Hstep. injection Hstep as <-.
      pose proof (set_query_started q (QHolding r) qs Hq) as Hs1.
      pose proof (set_query_holding q (QHolding r) qs Hq) as Hh1.
      simpl in Hs1, Hh1.
      assert (Hsame : factory_calls (snd (Acquire s)) = factory_calls s)
        by (unfold factory_calls; now rewrite He).
      assert (Hone : 1 <= factory_calls s).
      { apply Permutation_length in Hp. unfold created in Hp.
        rewrite length_map, length_seq, !length_app in Hp. simpl in Hp. lia. }
      constructor; simpl; rewrite ?Hsame, ?Hcl', ?Hcap'; auto.
      * unfold Acquire, Chan.try_recv.
        unfold idle in Hi. rewrite Hi. simpl. exact Hf.
      * congruence.
      * lia.
      * now rewrite set_query_length.
      * unfold disposed in *. rewrite Hi', He, Hh1, Hp. simpl.
        symmetry. apply Permutation_middle.
  - (* Release *)
    destruct (nth_error qs q) as [[|conn|]|] eqn:Hq; try discriminate.
    destruct (Release connClose conn s) as [s1|] eqn:Hrel; [|discriminate].
    injection Hstep as <-.
    destruct (Release_consistent connClose conn Hc)
      as (s2 & Hs2 & Hc2 & Hcap2 & Hcl2).
    assert (s2 = s1) by congruence. subst s2.
    pose proof (set_query_started q QDone qs Hq) as Hs1.
    pose proof (set_query_holding q QDone qs Hq) as Hh1.
    simpl in Hs1, Hh1.
    assert (Hkeep : factory (pool s1) = factory (pool s)
                    /\ world s1 = world s
                    /\ factory_calls s1 = factory_calls s
                    /\ Permutation (conn :: idle s ++ disposed s)
                                   (idle s1 ++ disposed s1)).
    { unfold Release in Hrel. rewrite Ho in Hrel.
      unfold Chan.try_send in Hrel.
      destruct (Chan.closed (resources (pool s))); [discriminate|].
      destruct (length (Chan.buf (resources (pool s)))
                <? Chan.cap (resources (pool s)));
        injection Hrel as <-.
      - unfold idle, disposed, factory_calls; simpl. splits; auto.
        rewrite <- app_assoc. simpl. apply Permutation_middle.
      - rewrite dispose_idle, dispose_disposed, dispose_factory_calls,
          dispose_pool.
        unfold dispose, connClose. simpl. splits; auto.
        rewrite Permutation_cons_append. now rewrite <- app_assoc. }
    destruct Hkeep as (Hf1 & Hw1 & Hn1 & Hperm).
    constructor; simpl; rewrite ?Hn1, ?Hcap2; auto.
    + congruence.
    + congruence.
    + congruence.
    + lia.
    + destruct H1 as [H1|H1]; [lia|auto].
    + now rewrite set_query_length.
    + rewrite Hp. rewrite <- Hh1. simpl.
      rewrite <- Hperm. apply Permutation_middle.
Qed.

Lemma drun_DInv (ls : list dlabel) (d d' : Driver) :
  DInv d -> drun ls d = Some d' -> DInv d'.
Proof.
  revert d. induction ls as [|l ls IH]; intros d HI Hrun; simpl in Hrun.
  - now injection Hrun as <-.
  - destruct (dstep l d) as [d1|] eqn:Hstep; [|discriminate].
    eapply IH; [|exact Hrun]. eapply dstep_DInv; eauto.
Qed.

Lemma NoDup_app_apart (A : Type) (l l' : list A) (a : A) :
  NoDup (l ++ l') -> In a l -> ~ In a l'.
Proof.
  induction l as [|x l IH]; simpl; intros Hnd Hin; [destruct Hin|].
  inversion Hnd as [|y m Hx Hm]; subst.
  destruct Hin as [->|Hin]; [|now apply IH].
  intros Ha. apply Hx, in_or_app. auto.
Qed.

Lemma holding_In (qs : list query) (q : nat) (c : Z) :
  nth_error qs q = Some (QHolding c) -> In c (holding qs).
Proof.
  revert q. induction qs as [|x qs IH]; intros [|q] H; simpl in *;
    try discriminate; unfold holding in *; simpl; apply in_or_app.
  - injection H as ->. left. simpl. auto.
  - right. eapply IH; eauto.
Qed.

Lemma holding_unique (qs : list query) (q q' : nat) (c : Z) :
  NoDup (holding qs) ->
  nth_error qs q = Some (QHolding c) ->
  nth_error qs q' = Some (QHolding c) -> q = q'.
Proof.
  revert q q'. induction qs as [|x qs IH]; intros q q' Hnd Hq Hq'.
  - destruct q; discriminate.
  - unfold holding in Hnd. simpl in Hnd. fold (holding qs) in Hnd.
    assert (Htail : NoDup (holding qs))
      by (destruct x; simpl in Hnd; auto; now inversion Hnd).
    assert (Hhead : x = QHolding c -> ~ In c (holding qs))
      by (intros ->; simpl in Hnd; now inversion Hnd).
    destruct q as [|q], q' as [|q']; simpl in Hq, Hq'.
    + reflexivity.
    + injection Hq as ->. destruct (Hhead eq_refl). eapply holding_In; eauto.
    + injection Hq' as ->. destruct (Hhead eq_refl). eapply holding_In; eauto.
    + f_equal. now apply IH.
Qed.

(** X5.  No connection is shared.  In every state of the driver,
    whatever the order in which its goroutines acquire and release:
    a connection held by a query is held by no other query, is not
    in the pool's buffer and has not been closed; its [ID] is one of
    1 to [maxGoroutines]; and the buffer never holds more than
    [pooledResources] connections. *)
Theorem connections_never_shared (ls : list dlabel) (d0 d : Driver) :
  driver_init = Some d0 -> drun ls d0 = Some d ->
  length (idle (shared d)) <= N.to_nat pooledResources
  /\ forall q c,
       nth_error (queries d) q = Some (QHolding c) ->
       (forall q', nth_error (queries d) q' = Some (QHolding c) -> q' = q)
       /\ ~ In c (idle (shared d))
       /\ ~ In c (disposed (shared d))
       /\ (1 <= c <= Z.of_nat maxGoroutines)%Z.
Proof.
  intros H0 Hrun.
  destruct (drun_DInv ls (driver_init_DInv H0) Hrun)
    as [Hc Ho Hf Hw Hn H1 Hl Hp Hcap].
  split.
  - destruct Hc as (_ & _ & Hlen). now rewrite <- Hcap.
  - intros q c Hq.
    assert (Hnd : NoDup (holding (queries d) ++ idle (shared d)
                         ++ disposed (shared d)))
      by (eapply Permutation_NoDup; [exact Hp|apply created_NoDup]).
    pose proof (holding_In _ _ Hq) as Hin.
    split; [|split; [|split]].
    + intros q' Hq'. eapply holding_unique; eauto.
      now apply NoDup_app_remove_r in Hnd.
    + intros Hi. apply (NoDup_app_apart _ _ c Hnd Hin).
      apply in_or_app. auto.
    + intros Hi. apply (NoDup_app_apart _ _ c Hnd Hin).
      apply in_or_app. auto.
    + assert (Hcr : In c (created (factory_calls (shared d)))).
      { eapply Permutation_in; [symmetry; exact Hp|].
        apply in_or_app. auto. }
      unfold created in Hcr. apply in_map_iff in Hcr.
      destruct Hcr as (k & <- & Hk). apply in_seq in Hk.
      pose proof (started_le_length (queries d)) as Hle. lia.
Qed.

(** X6.  The driver closes every connection it creates, once.  In
    whatever order its goroutines acquire and release, when [main]
    has closed the pool the buffer is empty, and the connections
    that were disposed of are exactly the connections that were
    created, [ID]s 1 to [n], each disposed of once; between one
    and [maxGoroutines] connections were created. *)
Theorem driver_closes_every_connection (ls : list dlabel) (s : State Z Z) :
  driver_main ls = Some s ->
  idle s = []
  /\ Permutation (disposed s) (created (factory_calls s))
  /\ NoDup (disposed s)
  /\ 1 <= factory_calls s <= maxGoroutines.
Proof.
  unfold driver_main. destruct driver_init as [d0|] eqn:H0; [|discriminate].
  destruct (drun ls d0) as [d|] eqn:Hrun; [|discriminate].
  destruct (forallb is_done (queries d)) eqn:Hdone; [|discriminate].
  intros Hclose.
  destruct (drun_DInv ls (driver_init_DInv H0) Hrun)
    as [Hc Ho Hf Hw Hn H1 Hl Hp Hcap].
  destruct (all_done_holding _ Hdone) as (Hh & Hst).
  destruct Hc as (Hch & _ & _). rewrite Ho in Hch.
  destruct (Close_first connClose (shared d) Ho Hch)
    as (s' & Hs' & Hpool & Hd & Hfc).
  assert (s' = s) by congruence. subst s'.
  assert (Hperm : Permutation (disposed s) (created (factory_calls s))).
  { rewrite Hd, Hfc, Hp, Hh. simpl. apply Permutation_app_comm. }
  split; [unfold idle; now rewrite Hpool|].
  split; [exact Hperm|]. split.
  - eapply Permutation_NoDup; [symmetry; exact Hperm|apply created_NoDup].
  - rewrite Hfc. rewrite Hst, Hl in *. unfold maxGoroutines in *.
    destruct H1 as [H1|H1]; [discriminate|]. lia.
Qed.

(** Every goroutine acquires before any releases: 25 connections are
    created, 2 are cached and 23 disposed of on release. *)
Definition crowded : list dlabel :=
  map DAcquire (seq 0 maxGoroutines) ++ map DRelease (seq 0 maxGoroutines).

Lemma driver_closes_every_connection_witness :
  exists s,
    driver_main crowded = Some s
    /\ idle s = []
    /\ NoDup (disposed s)
    /\ factory_calls s = 25.
Proof.
  assert (Hn : option_map (@factory_calls Z Z) (driver_main crowded)
               = Some 25)
    by (vm_compute; reflexivity).
  destruct (driver_main crowded) as [s|] eqn:Hmain; [|discriminate Hn].
  destruct (driver_closes_every_connection crowded Hmain)
    as (H1 & _ & H3 & _).
  exists s. split; [reflexivity|]. split; [exact H1|]. split; [exact H3|].
  simpl in Hn. now injection Hn.
Defined.

Lemma connections_never_shared_witness :
  exists d0 d,
    driver_init = Some d0
    /\ drun (map DAcquire (seq 0 3) ++ [DRelease 1]) d0 = Some d
    /\ holding (queries d) = [1%Z; 3%Z]
    /\ ~ In 1%Z (idle (shared d)).
Proof.
  destruct driver_init as [d0|] eqn:H0; [|discriminate H0].
  assert (Hh : option_map (fun d => (holding (queries d), idle (shared d)))
                 (drun (map DAcquire (seq 0 3) ++ [DRelease 1]) d0)
               = Some ([1%Z; 3%Z], [2%Z])).
  { unfold driver_init in H0. simpl in H0. injection H0 as <-.
    vm_compute. reflexivity. }
  destruct (drun (map DAcquire (seq 0 3) ++ [DRelease 1]) d0) as [d|] eqn:Hrun;
    [|discriminate Hh].
  simpl in Hh. injection Hh as Hh1 Hh2.
  destruct (connections_never_shared _ H0 Hrun) as (_ & H).
  exists d0, d. split; [reflexivity|]. split; [exact Hrun|].
  split; [exact Hh1|].
  destruct (H 0 1%Z) as (_ & Hi & _); [|exact Hi].
  assert (Hq : option_map (fun d => nth_error (queries d) 0)
                 (drun (map DAcquire (seq 0 3) ++ [DRelease 1]) d0)
               = Some (Some (QHolding 1%Z))).
  { clear Hrun. unfold driver_init in H0. simpl in H0. injection H0 as <-.
    vm_compute. reflexivity. }
  rewrite Hrun in Hq. simpl in Hq. now injection Hq.
Defined.

End ResourcePool.
(** ** Package runner *)

Module Runner.

(** Values of Go's [error] interface: the package's two errors, and
    any other. *)
Inductive error : Type :=
| ErrTimeout
| ErrInterrupt
| ErrorString (msg : string).

(** Where the goroutine that called [Start] stands. *)
Inductive supervisor : Type :=
| SNotify                       (* next: [signal.Notify(r.interrupt, os.Interrupt)] *)
| SGo                           (* next: the [go] statement *)
| SSelect                       (* next: the [select] is evaluated *)
| SParked                       (* blocked in the [select]: no case was ready *)
| SReturned (err : option error).   (* [Start] has returned [err] *)

(** Where the goroutine started by [Start] stands. *)
Inductive worker : Type :=
| WIdle                         (* not started *)
| WLoop (id : nat)              (* [run]: at the head of the loop, index [id] next *)
| WTask (id : nat)              (* [task(id)] is running *)
| WStop                         (* [gotInterrupt] received; next: [signal.Stop] *)
| WRet (err : option error)     (* [run] has returned [err]; next: [r.complete <- err] *)
| WSend (err : option error)    (* blocked in [r.complete <- err] *)
| WDone.                        (* the goroutine has ended *)

Section Runner.

(** The [func(int)] values given to [Add]. *)
Variable Task : Type.

(** What the worker has done so far, oldest first (ghost state). *)
Inductive event : Type :=
| EvCheck (id : nat) (got : bool)   (* [gotInterrupt()] before task [id] returned [got] *)
| EvCall (t : Task) (arg : Z)       (* [t(arg)] was called *)
| EvRet (id : nat).                 (* the task at index [id] returned *)

(** [type Runner struct], and the goroutines that run on it.
    [complete] is unbuffered: a value passes from a worker blocked in
    its send ([WSend]) to the supervisor, or straight to a supervisor
    parked in its [select]. *)
Record State : Type := mkState {
  interrupt : Chan.chan unit;   (* [make(chan os.Signal, 1)] *)
  timeout : Chan.chan unit;     (* the channel of [time.After(d)] *)
  tasks : list Task;
  armed : bool;                 (* the timer of [time.After] has not fired *)
  notified : bool;              (* [r.interrupt] is registered for [os.Interrupt] *)
  sup : supervisor;
  wrk : worker;
  history : list event
}.

(** [New(d)]; how long [d] is decides when the environment fires the
    timer, not what the code does. *)
Definition New : State :=
  mkState (Chan.make unit 1) (Chan.make unit 1) [] true false SNotify WIdle [].

(** [Add(tasks...)] *)
Definition Add (ts : list Task) (s : State) : State :=
  mkState (interrupt s) (timeout s) (tasks s ++ ts) (armed s) (notified s)
          (sup s) (wrk s) (history s).

(** A runner with the tasks [ts], about to be started. *)
Definition init (ts : list Task) : State := Add ts New.

Definition set_sup (x : supervisor) (s : State) : State :=
  mkState (interrupt s) (timeout s) (tasks s) (armed s) (notified s)
          x (wrk s) (history s).

Definition set_wrk (x : worker) (s : State) : State :=
  mkState (interrupt s) (timeout s) (tasks s) (armed s) (notified s)
          (sup s) x (history s).

Definition set_interrupt (c : Chan.chan unit) (s : State) : State :=
  mkState c (timeout s) (tasks s) (armed s) (notified s)
          (sup s) (wrk s) (history s).

Definition set_timeout (c : Chan.chan unit) (s : State) : State :=
  mkState (interrupt s) c (tasks s) (armed s) (notified s)
          (sup s) (wrk s) (history s).

Definition set_armed (b : bool) (s : State) : State :=
  mkState (interrupt s) (timeout s) (tasks s) b (notified s)
          (sup s) (wrk s) (history s).

Definition set_notified (b : bool) (s : State) : State :=
  mkState (interrupt s) (timeout s) (tasks s) (armed s) b
          (sup s) (wrk s) (history s).

Definition log (es : list event) (s : State) : State :=
  mkState (interrupt s) (timeout s) (tasks s) (armed s) (notified s)
          (sup s) (wrk s) (history s ++ es).

(** Who takes the next atomic action. *)
Inductive label : Type :=
| LSup            (* the supervisor: its next statement, or parking in the [select] *)
| LRecvComplete   (* the supervisor: [select] takes [case err := <-r.complete] *)
| LRecvTimeout    (* the supervisor: [select] takes [case <-r.timeout] *)
| LWrk            (* the worker: its next action *)
| LSignal         (* the environment: an [os.Interrupt] arrives *)
| LDeadline.      (* the environment: the timer fires *)

(** The supervisor's [select] can take [<-r.complete]. *)
Definition complete_ready (s : State) : option (option error) :=
  match wrk s with WSend e => Some e | _ => None end.

(** The supervisor's [select] can take [<-r.timeout]. *)
Definition timeout_ready (s : State) : bool :=
  match Chan.try_recv (timeout s) with
  | Chan.RecvNotReady _ => false
  | _ => true
  end.

(** The worker's next action.
    - [WLoop id]: the loop of [run].  Past the last task, [run]
      returns nil.  Otherwise [gotInterrupt] polls [r.interrupt]: if
      a signal is there it is received, else [task(id)] is called.
    - [WTask id]: the task returns.
    - [WStop]: [signal.Stop(r.interrupt)], then [gotInterrupt]
      returns true and [run] returns [ErrInterrupt].
    - [WRet err]: [r.complete <- err]; the value goes to a parked
      supervisor, otherwise the worker blocks. *)
Definition worker_step (s : State) : option State :=
  match wrk s with
  | WIdle => None
  | WLoop id =>
      match nth_error (tasks s) id with
      | None => Some (set_wrk (WRet None) s)
      | Some t =>
          match Chan.try_recv (interrupt s) with
          | Chan.RecvValue _ c' =>
              Some (log [EvCheck id true] (set_wrk WStop (set_interrupt c' s)))
          | Chan.RecvClosed _ =>
              Some (log [EvCheck id true] (set_wrk WStop s))
          | Chan.RecvNotReady _ =>
              Some (log [EvCheck id false; EvCall t (Z.of_nat id)]
                        (set_wrk (WTask id) s))
          end
      end
  | WTask id => Some (log [EvRet id] (set_wrk (WLoop (S id)) s))
  | WStop => Some (set_wrk (WRet (Some ErrInterrupt)) (set_notified false s))
  | WRet e =>
      match sup s with
      | SParked => Some (set_sup (SReturned e) (set_wrk WDone s))
      | _ => Some (set_wrk (WSend e) s)
      end
  | WSend _ => None
  | WDone => None
  end.

(** The supervisor's next action in [Start]. *)
Definition supervisor_step (s : State) : option State :=
  match sup s with
  | SNotify => Some (set_sup SGo (set_notified true s))
  | SGo => Some (set_sup SSelect (set_wrk (WLoop 0) s))
  | SSelect =>
      match complete_ready s, timeout_ready s with
      | None, false => Some (set_sup SParked s)
      | _, _ => None
      end
  | SParked => None
  | SReturned _ => None
  end.

(** One atomic action.  [None]: the action is not possible in [s].
    When both cases of the [select] are ready Go chooses one of them
    at random: both [LRecvComplete] and [LRecvTimeout] are possible.
    The signal package hands a signal to a registered channel with a
    send that does not block: a signal that finds the buffer full, or
    the channel not registered, does not reach the runner. *)
Definition step (l : label) (s : State) : option State :=
  match l with
  | LSup => supervisor_step s
  | LRecvComplete =>
      match sup s, wrk s with
      | SSelect, WSend e => Some (set_sup (SReturned e) (set_wrk WDone s))
      | _, _ => None
      end
  | LRecvTimeout =>
      match sup s, Chan.try_recv (timeout s) with
      | SSelect, Chan.RecvValue _ c' =>
          Some (set_sup (SReturned (Some ErrTimeout)) (set_timeout c' s))
      | SSelect, Chan.RecvClosed _ =>
          Some (set_sup (SReturned (Some ErrTimeout)) s)
      | _, _ => None
      end
  | LWrk => worker_step s
  | LSignal =>
      if notified s
      then match Chan.try_send tt (interrupt s) with
           | Chan.SendOk c' => Some (set_interrupt c' s)
           | _ => Some s
           end
      else Some s
  | LDeadline =>
      if armed s
      then match sup s with
           | SParked => Some (set_sup (SReturned (Some ErrTimeout)) (set_armed false s))
           | _ =>
               match Chan.try_send tt (timeout s) with
               | Chan.SendOk c' => Some (set_timeout c' (set_armed false s))
               | _ => Some (set_armed false s)
               end
           end
      else None
  end.

Fixpoint run (ls : list label) (s : State) : option State :=
  match ls with
  | [] => Some s
  | l :: ls' =>
      match step l s with
      | Some s' => run ls' s'
      | None => None
      end
  end.

(** Observations on the history. *)
Fixpoint calls (h : list event) : list (Task * Z) :=
  match h with
  | [] => []
  | EvCall t arg :: h' => (t, arg) :: calls h'
  | _ :: h' => calls h'
  end.

(** The indices at which [gotInterrupt] returned true. *)
Fixpoint observations (h : list event) : list nat :=
  match h with
  | [] => []
  | EvCheck id true :: h' => id :: observations h'
  | _ :: h' => observations h'
  end.

(** The number of tasks that have returned. *)
Fixpoint returns (h : list event) : nat :=
  match h with
  | [] => 0
  | EvRet _ :: h' => S (returns h')
  | _ :: h' => returns h'
  end.

(** [checks_outside running h]: along [h], which starts with a task
    running or not, no check falls between a call and its return, and
    calls and returns alternate. *)
Fixpoint checks_outside (running : bool) (h : list event) : bool :=
  match h with
  | [] => true
  | EvCheck _ _ :: h' => negb running && checks_outside running h'
  | EvCall _ _ :: h' => negb running && checks_outside true h'
  | EvRet _ :: h' => running && checks_outside false h'
  end.

(** The calls of a complete run: each task once, in index order, with
    its index as argument. *)
Definition in_order (ts : list Task) : list (Task * Z) :=
  combine ts (map Z.of_nat (seq 0 (length ts))).

(** *** Histories *)

(** After [h], which starts with a task running or not, is a task
    running? *)
Fixpoint running (r : bool) (h : list event) : bool :=
  match h with
  | [] => r
  | EvCheck _ _ :: h' => running r h'
  | EvCall _ _ :: h' => running true h'
  | EvRet _ :: h' => running false h'
  end.

Lemma calls_app (h h' : list event) : calls (h ++ h') = calls h ++ calls h'.
Proof.
  induction h as [|[id got|t arg|id] h IH]; simpl; auto. now rewrite IH.
Qed.

Lemma observations_app (h h' : list event) :
  observations (h ++ h') = observations h ++ observations h'.
Proof.
  induction h as [|[id [|]|t arg|id] h IH]; simpl; auto. now rewrite IH.
Qed.

Lemma returns_app (h h' : list event) :
  returns (h ++ h') = returns h + returns h'.
Proof.
  induction h as [|[id got|t arg|id] h IH]; simpl; auto.
Qed.

Lemma running_app (r : bool) (h h' : list event) :
  running r (h ++ h') = running (running r h) h'.
Proof.
  revert r. induction h as [|[id got|t arg|id] h IH]; intros r; simpl; auto.
Qed.

Lemma checks_outside_app (r : bool) (h h' : list event) :
  checks_outside r (h ++ h')
  = checks_outside r h && checks_outside (running r h) h'.
Proof.
  revert r. induction h as [|[id got|t arg|id] h IH]; intros r; simpl; auto;
    rewrite IH; now rewrite andb_assoc.
Qed.

Lemma in_order_length (ts : list Task) : length (in_order ts) = length ts.
Proof.
  unfold in_order. rewrite length_combine, length_map, length_seq. lia.
Qed.

Lemma nth_error_in_order_from (ts : list Task) (a i : nat) (t : Task) :
  nth_error ts i = Some t ->
  nth_error (combine ts (map Z.of_nat (seq a (length ts)))) i
  = Some (t, Z.of_nat (a + i)).
Proof.
  revert a i. induction ts as [|x ts IH]; intros a i H.
  - destruct i; discriminate.
  - destruct i as [|i]; simpl in *.
    + injection H as ->. now rewrite Nat.add_0_r.
    + rewrite (IH (S a) i H). do 3 f_equal. lia.
Qed.

Lemma firstn_snoc (A : Type) (l : list A) (i : nat) (x : A) :
  nth_error l i = Some x -> firstn (S i) l = firstn i l ++ [x].
Proof.
  revert i. induction l as [|y l IH]; intros i H.
  - destruct i; discriminate.
  - destruct i as [|i]; simpl in *.
    + now injection H as ->.
    + f_equal. now apply IH.
Qed.

Definition upto (ts : list Task) (i : nat) : list (Task * Z) :=
  firstn i (in_order ts).

Lemma in_order_next (ts : list Task) (i : nat) (t : Task) :
  nth_error ts i = Some t ->
  upto ts (S i) = upto ts i ++ [(t, Z.of_nat i)].
Proof.
  intros H. apply firstn_snoc. unfold in_order.
  now rewrite (nth_error_in_order_from ts 0 i H).
Qed.

Lemma in_order_all (ts : list Task) (i : nat) :
  length ts <= i -> upto ts i = in_order ts.
Proof.
  intros H. apply firstn_all2. now rewrite in_order_length.
Qed.

(** *** What every state of a run satisfies *)

(** The history up to the loop head for index [i]. *)
Definition done_upto (ts : list Task) (h : list event) (i : nat) : Prop :=
  calls h = upto ts i /\ returns h = i.

(** What holds once [run] has returned [e]. *)
Definition result_ok (ts : list Task) (s : State) (e : option error) : Prop :=
  match e with
  | None =>
      done_upto ts (history s) (length ts) /\ observations (history s) = []
  | Some x =>
      x = ErrInterrupt /\ notified s = false
      /\ exists i, i < length ts
                   /\ done_upto ts (history s) i
                   /\ observations (history s) = [i]
  end.

Definition worker_inv (ts : list Task) (s : State) : Prop :=
  match wrk s with
  | WIdle => history s = []
  | WLoop i =>
      i <= length ts /\ done_upto ts (history s) i
      /\ observations (history s) = []
  | WTask i =>
      i < length ts
      /\ calls (history s) = upto ts (S i)
      /\ returns (history s) = i
      /\ observations (history s) = []
  | WStop =>
      exists i, i < length ts
                /\ done_upto ts (history s) i
                /\ observations (history s) = [i]
  | WRet e => result_ok ts s e
  | WSend e => result_ok ts s e
  | WDone => exists e, sup s = SReturned e /\ result_ok ts s e
  end.

Definition supervisor_inv (s : State) : Prop :=
  match sup s with
  | SNotify => wrk s = WIdle
  | SGo => wrk s = WIdle
  | SSelect => wrk s <> WIdle /\ wrk s <> WDone
  | SParked =>
      wrk s <> WIdle /\ wrk s <> WDone /\ complete_ready s = None
      /\ timeout_ready s = false
  | SReturned e =>
      wrk s = WDone
      \/ (e = Some ErrTimeout /\ armed s = false
          /\ wrk s <> WIdle /\ wrk s <> WDone)
  end.

Definition is_task (w : worker) : bool :=
  match w with WTask _ => true | _ => false end.

(** Every event is about one of the tasks. *)
Definition in_range (ts : list Task) (ev : event) : Prop :=
  match ev with
  | EvCheck id _ => id < length ts
  | EvCall _ arg => (0 <= arg < Z.of_nat (length ts))%Z
  | EvRet id => id < length ts
  end.

Record Inv (ts : list Task) (s : State) : Prop := mkInv {
  inv_tasks : tasks s = ts;
  inv_worker : worker_inv ts s;
  inv_supervisor : supervisor_inv s;
  inv_timer : armed s = true -> timeout s = Chan.make unit 1;
  inv_fired : armed s = false ->
              (exists e, sup s = SReturned e) \/ timeout_ready s = true;
  inv_range : Forall (in_range ts) (history s);
  inv_outside : checks_outside false (history s) = true;
  inv_running : running false (history s) = is_task (wrk s)
}.

Lemma Inv_init (ts : list Task) : Inv ts (init ts).
Proof.
  constructor; unfold worker_inv, supervisor_inv; simpl; auto;
    try discriminate.
Qed.

Ltac inv_history :=
  rewrite ?calls_app, ?observations_app, ?returns_app,
          ?checks_outside_app, ?running_app, ?app_nil_r,
          ?Nat.add_0_r, ?Nat.add_1_r.

Ltac inv_unfold :=
  unfold worker_inv, supervisor_inv, complete_ready, timeout_ready,
         result_ok, done_upto in *; simpl in *.

Ltac inv_break :=
  repeat match goal with
         | H : _ /\ _ |- _ => destruct H
         | H : exists _, _ |- _ => destruct H
         | H : _ \/ _ |- _ => destruct H
         | H : Some _ = Some _ |- _ => injection H as H
         end.

Ltac inv_rew :=
  repeat match goal with
         | H : calls _ = _ |- _ => rewrite H
         | H : returns _ = _ |- _ => rewrite H
         | H : observations _ = _ |- _ => rewrite H
         | H : checks_outside _ _ = _ |- _ => rewrite H
         | H : running _ _ = _ |- _ => rewrite H
         end.

Ltac inv_close1 :=
  inv_rew; simpl; splits; auto; try lia; try congruence; try discriminate;
  try (right; splits; auto; (congruence || discriminate)).

Ltac inv_range :=
  match goal with
  | |- Forall _ (_ ++ _) =>
      apply Forall_app; split; [assumption|];
      repeat constructor; simpl; lia
  end.

Ltac inv_close :=
  inv_close1;
  try inv_range;
  try (intros _; left; eexists; reflexivity);
  try match goal with
      | Hf : ?a = false -> _ \/ _ |- ?a = false -> _ =>
          let H := fresh in
          let e := fresh in
          let He := fresh in
          intro H; destruct (Hf H) as [[e He]|He];
          [discriminate He|right; assumption]
      end;
  try (eexists; split; eassumption);
  try (eexists; inv_close1; fail);
  try (eexists; split; [reflexivity|]; inv_close1;
       try (eexists; inv_close1); fail).

Lemma worker_step_Inv (ts : list Task) (s s' : State) :
  Inv ts s -> worker_step s = Some s' -> Inv ts s'.
Proof.
  intros [Ht Hw Hs Htm Hf Hg Ho Hr] Hstep.
  destruct s as [ic tc tks ar nt sp wk h]. simpl in *. subst tks.
  unfold worker_step in Hstep; simpl in Hstep.
  destruct wk as [|i|i| |e|e|]; try discriminate.
  - (* the loop head *)
    destruct (nth_error ts i) as [t|] eqn:Hnth.
    + assert (Hlt : i < length ts) by (apply nth_error_Some; congruence).
      pose proof (in_order_next ts i Hnth) as Hnext.
      assert (Hzero : upto ts 0 = []) by reflexivity.
      destruct (Chan.try_recv ic) as [u c'| |]; injection Hstep as <-;
        destruct sp; inv_unfold; inv_break; try discriminate;
        constructor; inv_unfold; inv_history; simpl; inv_close;
        try (exists i; inv_close; fail).
    + apply nth_error_None in Hnth.
      injection Hstep as <-.
      destruct sp; inv_unfold; inv_break; try discriminate;
        assert (i = length ts) by lia; subst i;
        constructor; inv_unfold; inv_close.
  - (* a task returns *)
    injection Hstep as <-.
    destruct sp; inv_unfold; inv_break; try discriminate;
      constructor; inv_unfold; inv_history; simpl; inv_close.
  - (* signal.Stop *)
    injection Hstep as <-.
    destruct sp; inv_unfold; inv_break; try discriminate;
      constructor; inv_unfold; inv_close;
      try (eexists; inv_close; fail).
  - (* the send on r.complete *)
    destruct sp; injection Hstep as <-;
      destruct e as [x|]; inv_unfold; inv_break; try discriminate;
      constructor; inv_unfold; inv_close;
      try (eexists; inv_close; fail);
      try (eexists; split; [reflexivity|]; inv_close; eexists; inv_close; fail).
Qed.

Lemma step_Inv (ts : list Task) (l : label) (s s' : State) :
  Inv ts s -> step l s = Some s' -> Inv ts s'.
Proof.
  intros HI Hstep. destruct l; simpl in Hstep.
  - (* the supervisor's next statement *)
    destruct HI as [Ht Hw Hs Htm Hf Hg Ho Hr].
    destruct s as [ic tc tks ar nt sp wk h]. simpl in *. subst tks.
    unfold supervisor_step, complete_ready, timeout_ready in Hstep;
      simpl in Hstep.
    destruct sp; try discriminate.
    + injection Hstep as <-. inv_unfold. subst wk.
      constructor; inv_unfold; inv_close.
    + injection Hstep as <-. inv_unfold. subst wk. subst h.
      constructor; inv_unfold; inv_close.
    + destruct wk; try discriminate;
        destruct (Chan.try_recv tc) eqn:Hb; try discriminate;
        injection Hstep as <-;
        inv_unfold; rewrite Hb in *; inv_break; try congruence;
        constructor; inv_unfold; try rewrite Hb; inv_close.
  - (* the select takes <-r.complete *)
    destruct HI as [Ht Hw Hs Htm Hf Hg Ho Hr].
    destruct s as [ic tc tks ar nt sp wk h]. simpl in *. subst tks.
    destruct sp; try discriminate. destruct wk; try discriminate.
    injection Hstep as <-.
    destruct err; inv_unfold; inv_break;
      constructor; inv_unfold; inv_close.
  - (* the select takes <-r.timeout *)
    destruct HI as [Ht Hw Hs Htm Hf Hg Ho Hr].
    destruct s as [ic tc tks ar nt sp wk h]. simpl in *. subst tks.
    destruct sp; try discriminate.
    destruct (Chan.try_recv tc) as [u c'| |] eqn:Hb; try discriminate;
      (assert (Har : ar = false)
        by (destruct ar; auto; rewrite (Htm eq_refl) in Hb; discriminate));
      injection Hstep as <-;
    destruct wk; inv_unfold; inv_break; try congruence;
      constructor; inv_unfold; inv_close.
  - (* the worker *)
    eapply worker_step_Inv; eauto.
  - (* a signal *)
    destruct HI as [Ht Hw Hs Htm Hf Hg Ho Hr].
    destruct s as [ic tc tks ar nt sp wk h]. simpl in *. subst tks.
    assert (Hsame : forall c,
               Inv ts (mkState c tc ts ar nt sp wk h)).
    { intros c. constructor; auto. }
    destruct nt; [|injection Hstep as <-; apply Hsame].
    destruct (Chan.try_send tt ic); injection Hstep as <-; apply Hsame.
  - (* the deadline *)
    destruct HI as [Ht Hw Hs Htm Hf Hg Ho Hr].
    destruct s as [ic tc tks ar nt sp wk h]. simpl in *. subst tks.
    destruct ar; [|discriminate].
    rewrite (Htm eq_refl) in *. clear Htm.
    destruct sp; cbn in Hstep; injection Hstep as <-;
      destruct wk; try destruct err; inv_unfold; inv_break;
      try congruence;
      constructor; inv_unfold; inv_close.
Qed.

Lemma run_Inv (ts : list Task) (ls : list label) (s s' : State) :
  Inv ts s -> run ls s = Some s' -> Inv ts s'.
Proof.
  revert s. induction ls as [|l ls IH]; intros s HI Hrun; simpl in Hrun.
  - now injection Hrun as <-.
  - destruct (step l s) as [s1|] eqn:Hstep; [|discriminate].
    eapply IH; [|exact Hrun]. eapply step_Inv; eauto.
Qed.

Lemma run_app (ls ls' : list label) (s : State) :
  run (ls ++ ls') s
  = match run ls s with Some s' => run ls' s' | None => None end.
Proof.
  revert s. induction ls as [|l ls IH]; intros s; simpl; auto.
  destruct (step l s); auto.
Qed.

(** *** Runs of [Start] *)

Lemma reach_Inv (ts : list Task) (ls : list label) (s : State) :
  run ls (init ts) = Some s -> Inv ts s.
Proof. apply run_Inv, Inv_init. Qed.

Lemma observations_In (h : list event) (i : nat) :
  In (EvCheck i true) h <-> In i (observations h).
Proof.
  induction h as [|[id [|]|t arg|id] h IH]; simpl; try tauto.
  - split; intros [H|H]; try tauto; left; congruence.
  - split; intros H; try tauto. destruct H as [H|H]; [discriminate|tauto].
  - split; intros H; try tauto. destruct H as [H|H]; [discriminate|tauto].
  - split; intros H; try tauto. destruct H as [H|H]; [discriminate|tauto].
Qed.

(** How [Start] can have returned. *)
Lemma returned_cases (ts : list Task) (s : State) (e : option error) :
  Inv ts s -> sup s = SReturned e ->
  (wrk s = WDone /\ result_ok ts s e)
  \/ (e = Some ErrTimeout /\ armed s = false /\ wrk s <> WDone).
Proof.
  intros [Ht Hw Hs Htm Hf Hg Ho Hr] He.
  unfold supervisor_inv in Hs. rewrite He in Hs.
  destruct Hs as [Hd|(-> & Ha & _ & Hn)]; [left|right; auto].
  split; [exact Hd|]. unfold worker_inv in Hw. rewrite Hd in Hw.
  destruct Hw as (e' & He' & Hok). congruence.
Qed.

(** Where the worker stands once an interrupt has been received. *)
Lemma interrupted_cases (ts : list Task) (s : State) (i : nat) :
  Inv ts s -> In (EvCheck i true) (history s) ->
  observations (history s) = [i] /\ i < length ts
  /\ done_upto ts (history s) i
  /\ (wrk s = WStop
      \/ (notified s = false
          /\ (wrk s = WRet (Some ErrInterrupt)
              \/ wrk s = WSend (Some ErrInterrupt)
              \/ (wrk s = WDone /\ sup s = SReturned (Some ErrInterrupt))))).
Proof.
  intros [Ht Hw Hs Htm Hf Hg Ho Hr] Hin.
  apply observations_In in Hin.
  unfold worker_inv, result_ok in Hw.
  destruct (wrk s) as [|j|j| |[x|]|[x|]|] eqn:Hwrk.
  - rewrite Hw in Hin. destruct Hin.
  - destruct Hw as (_ & _ & Hobs). rewrite Hobs in Hin. destruct Hin.
  - destruct Hw as (_ & _ & _ & Hobs). rewrite Hobs in Hin. destruct Hin.
  - destruct Hw as (j & Hj & Hd & Hobs). rewrite Hobs in Hin.
    destruct Hin as [<-|[]]. auto.
  - destruct Hw as (-> & Hnt & j & Hj & Hd & Hobs). rewrite Hobs in Hin.
    destruct Hin as [<-|[]]. splits; auto.
  - destruct Hw as (_ & Hobs). rewrite Hobs in Hin. destruct Hin.
  - destruct Hw as (-> & Hnt & j & Hj & Hd & Hobs). rewrite Hobs in Hin.
    destruct Hin as [<-|[]]. splits; auto.
  - destruct Hw as (_ & Hobs). rewrite Hobs in Hin. destruct Hin.
  - destruct Hw as ([x|] & Hsup & Hok).
    + destruct Hok as (-> & Hnt & j & Hj & Hd & Hobs). rewrite Hobs in Hin.
      destruct Hin as [<-|[]]. splits; auto.
      right. split; auto.
    + destruct Hok as (_ & Hobs). rewrite Hobs in Hin. destruct Hin.
Qed.

(** With no signal in [r.interrupt], the worker goes through the
    remaining tasks one after the other. *)
Lemma loop_runs (ts : list Task) (n : nat) :
  forall i ic tc ar nt sp h,
    Chan.try_recv ic = Chan.RecvNotReady unit -> i + n = length ts ->
    exists h',
      run (repeat LWrk (2 * n)) (mkState ic tc ts ar nt sp (WLoop i) h)
      = Some (mkState ic tc ts ar nt sp (WLoop (i + n)) h').
Proof.
  induction n as [|n IH]; intros i ic tc ar nt sp h Hic Hlen.
  - exists h. simpl. now rewrite Nat.add_0_r.
  - replace (2 * S n) with (S (S (2 * n))) by lia.
    cbn [repeat run step]. unfold worker_step at 1. cbn [wrk tasks interrupt].
    destruct (nth_error ts i) as [t|] eqn:Hnth.
    2:{ apply nth_error_None in Hnth. lia. }
    rewrite Hic.
    destruct (IH (S i) ic tc ar nt sp
                 ((h ++ [EvCheck i false; EvCall t (Z.of_nat i)]) ++ [EvRet i])
                 Hic ltac:(lia)) as (h' & Hh').
    exists h'. replace (i + S n) with (S i + n) by lia. rewrite <- Hh'.
    reflexivity.
Qed.

(** The schedule in which nothing interferes: the supervisor registers
    for the signal, starts the worker and parks in its [select]; the
    worker runs every task and hands its result over. *)
Definition quiet_schedule (k : nat) : list label :=
  [LSup; LSup; LSup] ++ repeat LWrk (2 * k) ++ [LWrk; LWrk].

Lemma quiet_run (ts : list Task) :
  exists h,
    run (quiet_schedule (length ts)) (init ts)
    = Some (mkState (Chan.make unit 1) (Chan.make unit 1) ts true true
                    (SReturned None) WDone h).
Proof.
  unfold quiet_schedule.
  change (run ([LSup; LSup; LSup] ++ repeat LWrk (2 * length ts) ++ [LWrk; LWrk])
              (init ts))
    with (run (repeat LWrk (2 * length ts) ++ [LWrk; LWrk])
              (mkState (Chan.make unit 1) (Chan.make unit 1) ts true true
                       SParked (WLoop 0) [])).
  destruct (@loop_runs ts (length ts) 0 (Chan.make unit 1) (Chan.make unit 1)
              true true SParked [] eq_refl eq_refl) as (h & Hh).
  rewrite run_app, Hh. cbn [run step Nat.add].
  unfold worker_step at 1. cbn [wrk tasks].
  assert (Hnone : nth_error ts (length ts) = None)
    by (apply nth_error_None; lia).
  rewrite Hnone. cbn. now exists h.
Qed.

(** The actions of the supervisor and of the worker, as opposed to
    those of the environment. *)
Definition internal (l : label) : Prop :=
  l = LSup \/ l = LWrk \/ l = LRecvComplete.

Lemma internal_repeat (n : nat) : Forall internal (repeat LWrk n).
Proof.
  induction n as [|n IH]; simpl; constructor; auto.
  unfold internal. auto.
Qed.

(** From the head of the loop, with no signal in [r.interrupt] and a
    supervisor in its [select], the worker and the supervisor bring
    [Start] to return nil. *)
Lemma finish_from_loop (ts : list Task) (i : nat) (ic tc : Chan.chan unit)
    (ar nt : bool) (sp : supervisor) (h : list event) :
  Chan.try_recv ic = Chan.RecvNotReady unit -> i <= length ts ->
  sp = SSelect \/ sp = SParked ->
  exists ls' s',
    run ls' (mkState ic tc ts ar nt sp (WLoop i) h) = Some s'
    /\ Forall internal ls'
    /\ sup s' = SReturned None.
Proof.
  intros Hic Hi Hsp.
  destruct (@loop_runs ts (length ts - i) i ic tc ar nt sp h Hic ltac:(lia))
    as (h' & Hloop).
  replace (i + (length ts - i)) with (length ts) in Hloop by lia.
  assert (Hnone : nth_error ts (length ts) = None)
    by (apply nth_error_None; lia).
  destruct Hsp as [-> | ->].
  - exists (repeat LWrk (2 * (length ts - i)) ++ [LWrk; LWrk; LRecvComplete]).
    eexists. rewrite run_app, Hloop. cbn [run step].
    unfold worker_step at 1. cbn [wrk tasks]. rewrite Hnone.
    split; [reflexivity|]. split; [|reflexivity].
    apply Forall_app. split; [apply internal_repeat|].
    unfold internal. repeat (apply Forall_cons; [auto|]). apply Forall_nil.
  - exists (repeat LWrk (2 * (length ts - i)) ++ [LWrk; LWrk]).
    eexists. rewrite run_app, Hloop. cbn [run step].
    unfold worker_step at 1. cbn [wrk tasks]. rewrite Hnone.
    split; [reflexivity|]. split; [|reflexivity].
    apply Forall_app. split; [apply internal_repeat|].
    unfold internal. repeat (apply Forall_cons; [auto|]). apply Forall_nil.
Qed.

(** As long as the timer has not fired, no interrupt has been
    received and none is waiting in [r.interrupt], the supervisor and
    the worker bring [Start] to return nil from wherever they stand. *)
Lemma quiet_progress (ts : list Task) (s : State) :
  Inv ts s -> armed s = true -> observations (history s) = [] ->
  Chan.try_recv (interrupt s) = Chan.RecvNotReady unit ->
  exists ls' s',
    run ls' s = Some s' /\ Forall internal ls' /\ sup s' = SReturned None.
Proof.
  intros HI Harmed Hobs Hic.
  pose proof (inv_tasks HI) as Ht.
  pose proof (inv_worker HI) as Hw.
  pose proof (inv_supervisor HI) as Hs.
  destruct s as [ic tc tks ar nt sp wk h]. simpl in *. subst tks ar.
  assert (Hsup : internal LSup) by (unfold internal; auto).
  assert (Hwrk : internal LWrk) by (unfold internal; auto).
  assert (Hrcv : internal LRecvComplete) by (unfold internal; auto).
  unfold worker_inv, supervisor_inv, result_ok, complete_ready in *.
  simpl in *.
  destruct sp as [| | | |e].
  - (* before signal.Notify *)
    subst wk.
    destruct (@finish_from_loop ts 0 ic tc true true SSelect h Hic
                ltac:(lia) ltac:(auto)) as (ls' & s' & Hrun & Hall & Hret).
    exists (LSup :: LSup :: ls'), s'. simpl. auto.
  - (* before the go statement *)
    subst wk.
    destruct (@finish_from_loop ts 0 ic tc true nt SSelect h Hic
                ltac:(lia) ltac:(auto)) as (ls' & s' & Hrun & Hall & Hret).
    exists (LSup :: ls'), s'. simpl. auto.
  - (* at the select *)
    destruct wk as [|i|i| |[x|]|[x|]|]; inv_break; try congruence.
    + destruct (@finish_from_loop ts i ic tc true nt SSelect h Hic
                  ltac:(lia) ltac:(auto)) as (ls' & s' & Hrun & Hall & Hret).
      exists ls', s'. auto.
    + destruct (@finish_from_loop ts (S i) ic tc true nt SSelect
                  (h ++ [EvRet i]) Hic ltac:(lia) ltac:(auto))
        as (ls' & s' & Hrun & Hall & Hret).
      exists (LWrk :: ls'), s'. simpl. auto.
    + exists [LWrk; LRecvComplete]. eexists.
      split; [reflexivity|]. split; [|reflexivity].
      repeat (apply Forall_cons; [auto|]). apply Forall_nil.
    + exists [LRecvComplete]. eexists.
      split; [reflexivity|]. split; [|reflexivity].
      repeat (apply Forall_cons; [auto|]). apply Forall_nil.
  - (* parked in the select *)
    destruct wk as [|i|i| |[x|]|[x|]|]; inv_break; try congruence.
    + destruct (@finish_from_loop ts i ic tc true nt SParked h Hic
                  ltac:(lia) ltac:(auto)) as (ls' & s' & Hrun & Hall & Hret).
      exists ls', s'. auto.
    + destruct (@finish_from_loop ts (S i) ic tc true nt SParked
                  (h ++ [EvRet i]) Hic ltac:(lia) ltac:(auto))
        as (ls' & s' & Hrun & Hall & Hret).
      exists (LWrk :: ls'), s'. simpl. auto.
    + exists [LWrk]. eexists.
      split; [reflexivity|]. split; [|reflexivity].
      repeat (apply Forall_cons; [auto|]). apply Forall_nil.
  - (* returned *)
    destruct Hs as [->|(_ & Hno & _)]; [|discriminate].
    destruct Hw as (e' & He' & Hok). injection He' as <-.
    destruct e as [x|]; inv_break; try congruence.
    exists [], (mkState ic tc ts true nt (SReturned None) WDone h).
    split; [reflexivity|]. split; [constructor|reflexivity].
Qed.

Lemma observed_at_most_once (ts : list Task) (s : State) :
  Inv ts s -> length (observations (history s)) <= 1.
Proof.
  intros [Ht Hw Hs Htm Hf Hg Ho Hr].
  unfold worker_inv, result_ok in Hw.
  destruct (wrk s) as [|j|j| |[x|]|[x|]|]; inv_break;
    try match goal with
        | H : sup _ = SReturned ?e, H' : match ?e with _ => _ end |- _ =>
            destruct e; inv_break
        end;
    try match goal with
        | H : history _ = [] |- _ => rewrite H
        end;
    try match goal with
        | H : observations _ = _ |- _ => rewrite H
        end;
    simpl; lia.
Qed.

Lemma upto_all (ts : list Task) : upto ts (length ts) = in_order ts.
Proof. apply in_order_all. lia. Qed.

(** C2.  Take any run of [Start] on the tasks [ts] in which the timer
    has not fired and [gotInterrupt] has never returned true.
    - If [Start] has returned, it has returned nil, and the tasks were
      called in index order, each exactly once, each with its own
      index: the calls made are [(t0, 0), (t1, 1), ..., (t(k-1), k-1)].
    - If no signal is waiting in [r.interrupt] either, the supervisor
      and the worker bring [Start] to that return from wherever they
      stand.
    Such a run exists: in the quiet schedule [Start] returns nil. *)
Theorem Start_runs_tasks_in_order (ts : list Task) :
  (forall ls s e,
     run ls (init ts) = Some s ->
     armed s = true -> observations (history s) = [] ->
     sup s = SReturned e ->
     e = None /\ calls (history s) = in_order ts)
  /\ (forall ls s,
        run ls (init ts) = Some s ->
        armed s = true -> observations (history s) = [] ->
        Chan.try_recv (interrupt s) = Chan.RecvNotReady unit ->
        exists ls' s',
          run ls' s = Some s' /\ Forall internal ls'
          /\ sup s' = SReturned None
          /\ calls (history s') = in_order ts)
  /\ (exists s,
        run (quiet_schedule (length ts)) (init ts) = Some s
        /\ armed s = true /\ observations (history s) = []
        /\ sup s = SReturned None
        /\ calls (history s) = in_order ts).
Proof.
  assert (Hall : forall ls s e,
             run ls (init ts) = Some s ->
             armed s = true -> observations (history s) = [] ->
             sup s = SReturned e ->
             e = None /\ calls (history s) = in_order ts).
  { intros ls s e Hrun Harmed Hobs Hsup.
    destruct (returned_cases (reach_Inv ts ls Hrun) Hsup)
      as [(_ & Hok)|(_ & Ha & _)]; [|congruence].
    destruct e as [x|]; simpl in Hok.
    - destruct Hok as (_ & _ & i & _ & _ & Hi). congruence.
    - destruct Hok as ((Hc & _) & _). now rewrite <- upto_all. }
  split; [exact Hall|]. split.
  { intros ls s Hrun Harmed Hobs Hic.
    destruct (quiet_progress (reach_Inv ts ls Hrun) Harmed Hobs Hic)
      as (ls' & s' & Hrun' & Hint & Hret).
    exists ls', s'. splits; auto.
    assert (Hreach : run (ls ++ ls') (init ts) = Some s')
      by (now rewrite run_app, Hrun).
    destruct (returned_cases (reach_Inv ts _ Hreach) Hret)
      as [(_ & (Hc & _) & _)|(Hx & _)]; [|discriminate].
    now rewrite <- upto_all. }
  destruct (quiet_run ts) as (h & Hrun).
  eexists. split; [exact Hrun|].
  pose proof (reach_Inv ts _ Hrun) as HI.
  destruct (returned_cases HI eq_refl) as [(_ & (Hc & _) & Hobs)|(Hx & _)];
    [|discriminate].
  simpl in *. splits; auto. now rewrite <- upto_all.
Qed.


(** C5, as the code has it.  In every state of every run:
    - checks for an interrupt are made only while no task is running;
    - [gotInterrupt] has returned true at most once;
    - if it returned true before the task of index [i], then no task
      of index [i] or more has been called; once [signal.Stop] has
      run the channel is no longer registered and a further signal
      changes nothing; if [Start] has returned, it has returned
      [ErrInterrupt], or [ErrTimeout] and the timer had fired; and
      as long as the timer has not fired, the supervisor and the
      worker alone bring [Start] to return [ErrInterrupt], with no
      further call of a task. *)
Theorem interrupt_stops_the_run (ts : list Task) (ls : list label)
    (s : State) :
  run ls (init ts) = Some s ->
  checks_outside false (history s) = true
  /\ length (observations (history s)) <= 1
  /\ forall i, In (EvCheck i true) (history s) ->
       i < length ts
       /\ calls (history s) = firstn i (in_order ts)
       /\ (wrk s <> WStop -> notified s = false /\ step LSignal s = Some s)
       /\ (forall e, sup s = SReturned e ->
             e = Some ErrInterrupt
             \/ (e = Some ErrTimeout /\ armed s = false))
       /\ (armed s = true ->
           exists ls' s',
             run ls' s = Some s'
             /\ Forall internal ls'
             /\ sup s' = SReturned (Some ErrInterrupt)
             /\ history s' = history s).
Proof.
  intros Hrun. pose proof (reach_Inv ts ls Hrun) as HI.
  split; [apply (inv_outside HI)|].
  split; [apply (observed_at_most_once HI)|].
  intros i Hin.
  destruct (interrupted_cases i HI Hin) as (Hobs & Hi & (Hc & _) & Hwrk).
  split; [exact Hi|]. split; [exact Hc|].
  split; [|split].
  - intros Hns.
    destruct Hwrk as [Hw|(Hnt & _)]; [contradiction|].
    split; [exact Hnt|]. simpl. now rewrite Hnt.
  - intros e Hsup.
    destruct (returned_cases HI Hsup) as [(_ & Hok)|(-> & Ha & _)];
      [|now right].
    destruct e as [x|]; simpl in Hok.
    + destruct Hok as (-> & _). now left.
    + destruct Hok as (_ & Hnone). congruence.
  - intros Harmed.
    pose proof (inv_supervisor HI) as Hs.
    pose proof (inv_fired HI) as Hf.
    destruct s as [ic tc tks ar nt sp wk h].
    unfold supervisor_inv, complete_ready, timeout_ready in *.
    simpl in *. subst ar.
    destruct Hwrk as [->|(_ & [->|[->|(-> & ->)]])].
    + destruct sp; inv_break; try discriminate.
      * exists [LWrk; LWrk; LRecvComplete]. eexists.
        split; [reflexivity|]. split; [unfold internal; repeat (apply Forall_cons; [auto|]); apply Forall_nil|].
        split; reflexivity.
      * exists [LWrk; LWrk]. eexists.
        split; [reflexivity|]. split; [unfold internal; repeat (apply Forall_cons; [auto|]); apply Forall_nil|].
        split; reflexivity.
    + destruct sp; inv_break; try discriminate.
      * exists [LWrk; LRecvComplete]. eexists.
        split; [reflexivity|]. split; [unfold internal; repeat (apply Forall_cons; [auto|]); apply Forall_nil|].
        split; reflexivity.
      * exists [LWrk]. eexists.
        split; [reflexivity|]. split; [unfold internal; repeat (apply Forall_cons; [auto|]); apply Forall_nil|].
        split; reflexivity.
    + destruct sp; inv_break; try discriminate.
      exists [LRecvComplete]. eexists.
      split; [reflexivity|]. split; [unfold internal; repeat (apply Forall_cons; [auto|]); apply Forall_nil|].
      split; reflexivity.
    + exists []. eexists.
      split; [reflexivity|]. split; [constructor|].
      split; reflexivity.
Qed.

(** C6, as the code has it.  In every state of every run:
    - if [Start] is blocked in its [select], the firing of the timer
      makes it return [ErrTimeout] at that moment, whatever the worker
      is doing and however many tasks remain;
    - if [Start] is about to evaluate its [select], the timer has
      fired and the worker is not offering its result, the [select]
      can only take the timeout, and [Start] returns [ErrTimeout]
      without a step of the worker;
    - if [Start] has returned an error, it is [ErrTimeout] or
      [ErrInterrupt]. *)
Theorem deadline_returns_ErrTimeout (ts : list Task) (ls : list label)
    (s : State) :
  run ls (init ts) = Some s ->
  (sup s = SParked ->
     exists s', step LDeadline s = Some s'
       /\ sup s' = SReturned (Some ErrTimeout)
       /\ wrk s' = wrk s /\ history s' = history s)
  /\ (sup s = SSelect -> timeout_ready s = true -> complete_ready s = None ->
      step LSup s = None /\ step LRecvComplete s = None
      /\ exists s', step LRecvTimeout s = Some s'
           /\ sup s' = SReturned (Some ErrTimeout)
           /\ wrk s' = wrk s /\ history s' = history s)
  /\ (forall e, sup s = SReturned (Some e) ->
        e = ErrTimeout \/ e = ErrInterrupt).
Proof.
  intros Hrun. pose proof (reach_Inv ts ls Hrun) as HI.
  split; [|split].
  - intros Hsup.
    pose proof (inv_supervisor HI) as Hs.
    pose proof (inv_fired HI) as Hf.
    unfold supervisor_inv in Hs. rewrite Hsup in Hs.
    destruct Hs as (_ & _ & _ & Hnr).
    assert (Harmed : armed s = true).
    { destruct (armed s); auto.
      destruct (Hf eq_refl) as [(e & He)|He]; congruence. }
    simpl. rewrite Harmed, Hsup. eexists. split; [reflexivity|].
    simpl. auto.
  - intros Hsup Hto Hco. simpl.
    unfold supervisor_step, complete_ready, timeout_ready in *.
    rewrite Hsup.
    destruct (wrk s) eqn:Hwk; try discriminate;
      destruct (Chan.try_recv (timeout s)); try discriminate;
      (split; [reflexivity|]); (split; [reflexivity|]);
      eexists; (split; [reflexivity|]); simpl; auto.
  - intros e Hsup.
    destruct (returned_cases HI Hsup) as [(_ & Hok)|(He & _)].
    + destruct Hok as (-> & _). now right.
    + injection He as ->. now left.
Qed.

End Runner.

Arguments New {Task}.
Arguments EvCheck {Task}.
Arguments EvRet {Task}.

(** *** The driver's runner

    Tasks are told apart by a number; the driver adds three. *)

Definition driver_tasks : list nat := [1; 2; 3].

(** The state after a schedule, for a runner with the tasks [ts]. *)
Definition final (ls : list label) (ts : list nat) : State nat :=
  match run ls (init ts) with
  | Some s => s
  | None => init ts
  end.

Lemma Start_runs_tasks_in_order_witness :
  (None : option error) = None
  /\ calls (history (final (quiet_schedule 3) driver_tasks))
     = [(1, 0%Z); (2, 1%Z); (3, 2%Z)].
Proof.
  destruct (Start_runs_tasks_in_order driver_tasks) as (H & _ & _).
  assert (Hrun : run (quiet_schedule 3) (init driver_tasks)
                 = Some (final (quiet_schedule 3) driver_tasks))
    by (vm_compute; reflexivity).
  destruct (H _ _ None Hrun) as [H1 H2]; try (vm_compute; reflexivity).
  split; [exact H1|]. vm_compute in H2. exact H2.
Defined.


(** The worker receives an interrupt after task 0 and before task 1:
    the supervisor parks, task 0 starts, a signal arrives, task 0
    returns, and the check before task 1 finds the signal. *)
Definition interrupted_schedule : list label :=
  [LSup; LSup; LSup; LWrk; LSignal; LWrk; LWrk].

Lemma interrupt_stops_the_run_witness :
  checks_outside false (history (final interrupted_schedule [1; 2])) = true
  /\ calls (history (final interrupted_schedule [1; 2])) = [(1, 0%Z)].
Proof.
  assert (Hrun : run interrupted_schedule (init [1; 2])
                 = Some (final interrupted_schedule [1; 2]))
    by (vm_compute; reflexivity).
  destruct (@interrupt_stops_the_run nat _ _ _ Hrun) as (H1 & _ & H3).
  split; [exact H1|].
  destruct (H3 1) as (_ & Hc & _).
  - vm_compute. auto 10.
  - vm_compute in Hc. vm_compute. exact Hc.
Defined.

Lemma deadline_returns_ErrTimeout_witness :
  exists s',
    step LDeadline (final [LSup; LSup; LSup; LWrk] [1; 2]) = Some s'
    /\ sup s' = SReturned (Some ErrTimeout)
    /\ wrk s' = WTask 0.
Proof.
  assert (Hrun : run [LSup; LSup; LSup; LWrk] (init [1; 2])
                 = Some (final [LSup; LSup; LSup; LWrk] [1; 2]))
    by (vm_compute; reflexivity).
  destruct (@deadline_returns_ErrTimeout nat _ _ _ Hrun) as (H & _).
  destruct H as (s' & H1 & H2 & H3 & _); [vm_compute; reflexivity|].
  exists s'. split; [exact H1|]. split; [exact H2|].
  rewrite H3. vm_compute. reflexivity.
Defined.

(** C5 as it is stated fails: [Start] need not return [ErrInterrupt]
    when the worker has received an interrupt between two tasks.  The
    supervisor is parked in its [select]; task 0 runs and returns; the
    check before task 1 receives the signal; before the worker gets to
    send [ErrInterrupt], the timer fires and [Start] returns
    [ErrTimeout]. *)
Lemma observed_interrupt_lost_to_timeout :
  ~ (forall (ts : list nat) (ls : list label) (s : State nat) (i : nat)
            (e : option error),
       run ls (init ts) = Some s ->
       In (EvCheck (S i) true) (history s) ->
       sup s = SReturned e ->
       e = Some ErrInterrupt).
Proof.
  intros H.
  assert (Hno : Some ErrTimeout = Some ErrInterrupt).
  { apply (H [1; 2] (interrupted_schedule ++ [LDeadline])
             (final (interrupted_schedule ++ [LDeadline]) [1; 2]) 0).
    - vm_compute. reflexivity.
    - vm_compute. auto 10.
    - vm_compute. reflexivity. }
  discriminate Hno.
Qed.

(** C6 as it is stated fails: [Start] need not return [ErrTimeout]
    when the timer fires before all tasks are done.  The timer fires
    before [Start] is called; [Start] registers and starts the worker,
    which runs its one task and blocks in its send before the
    supervisor evaluates the [select]; both cases are then ready, and
    the [select] may take the worker's result: [Start] returns nil. *)
Lemma expired_deadline_lost_to_completion :
  ~ (forall (ts : list nat) (ls1 ls2 : list label) (s1 s : State nat)
            (e : option error),
       run ls1 (init ts) = Some s1 ->
       returns (history s1) < length ts ->
       run (LDeadline :: ls2) s1 = Some s ->
       sup s = SReturned e ->
       e = Some ErrTimeout).
Proof.
  intros H.
  assert (Hno : None = Some ErrTimeout).
  { apply (H [1] [] [LSup; LSup; LWrk; LWrk; LWrk; LWrk; LRecvComplete]
             (init [1])
             (final [LDeadline; LSup; LSup; LWrk; LWrk; LWrk; LWrk;
                     LRecvComplete] [1])).
    - vm_compute. reflexivity.
    - vm_compute. lia.
    - vm_compute. reflexivity.
    - vm_compute. reflexivity. }
  discriminate Hno.
Qed.


(** *** After [Start] has returned *)

Section Returned.

Variable Task : Type.

(** Once [Start] has returned, no action changes what it returned;
    a worker that has ended stays so and records nothing more; a
    worker that has not ended never does. *)
Lemma returned_step (l : label) (s s' : State Task) (e : option error) :
  sup s = SReturned e -> step l s = Some s' ->
  sup s' = SReturned e
  /\ tasks s' = tasks s
  /\ (armed s = false -> armed s' = false)
  /\ (wrk s = WDone -> wrk s' = WDone /\ history s' = history s)
  /\ (wrk s <> WDone -> wrk s' <> WDone).
Proof.
  intros He Hstep.
  destruct s as [ic tc tks ar nt sp wk h]. simpl in *. subst sp.
  destruct l; simpl in Hstep; try discriminate.
  - (* the worker *)
    unfold worker_step in Hstep. simpl in Hstep.
    destruct wk as [|i|i| |x|x|]; try discriminate.
    + destruct (nth_error tks i) as [t|].
      * destruct (Chan.try_recv ic) as [u c'| |];
          injection Hstep as <-; simpl; splits; auto; discriminate.
      * injection Hstep as <-; simpl; splits; auto; discriminate.
    + injection Hstep as <-; simpl; splits; auto; discriminate.
    + injection Hstep as <-; simpl; splits; auto; discriminate.
    + injection Hstep as <-; simpl; splits; auto; discriminate.
  - (* a signal *)
    destruct nt.
    + destruct (Chan.try_send tt ic); injection Hstep as <-; simpl;
        splits; auto.
    + injection Hstep as <-; simpl; splits; auto.
  - (* the timer *)
    destruct ar; [|discriminate].
    destruct (Chan.try_send tt tc); injection Hstep as <-; simpl;
      splits; auto; discriminate.
Qed.

Lemma returned_run (ls : list label) (s s' : State Task) (e : option error) :
  sup s = SReturned e -> run ls s = Some s' ->
  sup s' = SReturned e
  /\ tasks s' = tasks s
  /\ (armed s = false -> armed s' = false)
  /\ (wrk s = WDone -> wrk s' = WDone /\ history s' = history s)
  /\ (wrk s <> WDone -> wrk s' <> WDone).
Proof.
  revert s. induction ls as [|l ls IH]; intros s He Hrun; simpl in Hrun.
  - injection Hrun as <-. splits; auto.
  - destruct (step l s) as [s1|] eqn:Hstep; [|discriminate].
    destruct (@returned_step l s s1 e He Hstep) as (He1 & Ht1 & Ha1 & Hd1 & Hn1).
    destruct (IH s1 He1 Hrun) as (He2 & Ht2 & Ha2 & Hd2 & Hn2).
    splits; auto.
    + congruence.
    + intros Hd. destruct (Hd1 Hd) as [Hw Hh].
      destruct (Hd2 Hw) as [Hw' Hh']. split; congruence.
Qed.

(** When [Start] has returned [ErrTimeout] the worker has not ended,
    and the timer has fired. *)
Lemma timed_out_cases (ts : list Task) (s : State Task) :
  Inv ts s -> sup s = SReturned (Some ErrTimeout) ->
  armed s = false /\ wrk s <> WIdle /\ wrk s <> WDone.
Proof.
  intros HI He.
  pose proof (inv_worker HI) as Hw. pose proof (inv_supervisor HI) as Hs.
  unfold supervisor_inv in Hs. rewrite He in Hs.
  destruct Hs as [Hd|(_ & Ha & Hi & Hd)]; [|auto].
  unfold worker_inv in Hw. rewrite Hd in Hw.
  destruct Hw as (e' & He' & Hok). rewrite He in He'. injection He' as <-.
  destruct Hok as (Hx & _). discriminate Hx.
Qed.

(** X7.  When [Start] returns nil or [ErrInterrupt], nothing of the
    runner is left running: the worker goroutine has ended, no task
    is running, and whatever happens afterwards (signals, the timer)
    no task is called or returns any more. *)
Theorem Start_return_ends_worker (ts : list Task) (ls ls' : list label)
    (s s' : State Task) (e : option error) :
  run ls (init ts) = Some s ->
  sup s = SReturned e -> e <> Some ErrTimeout ->
  run ls' s = Some s' ->
  wrk s = WDone
  /\ running false (history s) = false
  /\ sup s' = SReturned e
  /\ wrk s' = WDone
  /\ history s' = history s.
Proof.
  intros Hrun He Hne Hrun'.
  pose proof (reach_Inv ts ls Hrun) as HI.
  assert (Hd : wrk s = WDone).
  { destruct (returned_cases HI He) as [[Hd _]|(Hx & _)]; [exact Hd|].
    contradiction. }
  destruct (@returned_run ls' s s' e He Hrun') as (He' & _ & _ & Hd' & _).
  destruct (Hd' Hd) as [Hw Hh].
  splits; auto.
  rewrite (inv_running HI), Hd. reflexivity.
Qed.

(** From the head of the loop, once [Start] has returned, the worker
    goes on until it blocks in its send on [r.complete]. *)
Lemma worker_blocks_from_loop (ts : list Task) (e0 : option error) (n : nat) :
  forall i ic tc ar nt h,
    length ts <= i + n ->
    exists k s',
      run (repeat LWrk k)
          (mkState ic tc ts ar nt (SReturned e0) (WLoop i) h) = Some s'
      /\ (exists e, wrk s' = WSend e).
Proof.
  induction n as [|n IH]; intros i ic tc ar nt h Hlen.
  - exists 2. eexists. cbn [repeat run step].
    unfold worker_step at 1. cbn [wrk tasks].
    assert (Hnone : nth_error ts i = None) by (apply nth_error_None; lia).
    rewrite Hnone. cbn. split; [reflexivity|]. now exists None.
  - destruct (nth_error ts i) as [t|] eqn:Hnth.
    + destruct (Chan.try_recv ic) as [u c'| |] eqn:Hic.
      * exists 3. eexists. cbn [repeat run step].
        unfold worker_step at 1. cbn [wrk tasks interrupt].
        rewrite Hnth, Hic. cbn. split; [reflexivity|].
        now exists (Some ErrInterrupt).
      * exists 3. eexists. cbn [repeat run step].
        unfold worker_step at 1. cbn [wrk tasks interrupt].
        rewrite Hnth, Hic. cbn. split; [reflexivity|].
        now exists (Some ErrInterrupt).
      * destruct (IH (S i) ic tc ar nt
                     ((h ++ [EvCheck i false; EvCall t (Z.of_nat i)])
                      ++ [EvRet i]) ltac:(lia)) as (k & s' & Hrun & Hw).
        exists (S (S k)), s'. cbn [repeat run step].
        unfold worker_step at 1. cbn [wrk tasks interrupt].
        rewrite Hnth, Hic. cbn. split; [exact Hrun|exact Hw].
    + exists 2. eexists. cbn [repeat run step].
      unfold worker_step at 1. cbn [wrk tasks].
      rewrite Hnth. cbn. split; [reflexivity|]. now exists None.
Qed.

Lemma worker_blocks (s : State Task) (e0 : option error) :
  sup s = SReturned e0 -> wrk s <> WIdle -> wrk s <> WDone ->
  exists k s',
    run (repeat LWrk k) s = Some s' /\ (exists e, wrk s' = WSend e).
Proof.
  intros He Hi Hd.
  destruct s as [ic tc ts ar nt sp wk h]. simpl in *. subst sp.
  destruct wk as [|i|i| |x|x|]; try congruence.
  - apply worker_blocks_from_loop with (n := length ts). lia.
  - destruct (@worker_blocks_from_loop ts e0 (length ts) (S i) ic tc ar nt
                (h ++ [EvRet i]) ltac:(lia)) as (k & s' & Hrun & Hw).
    exists (S k), s'. split; [exact Hrun|exact Hw].
  - exists 2. eexists. split; [reflexivity|].
    now exists (Some ErrInterrupt).
  - exists 1. eexists. split; [reflexivity|]. now exists x.
  - exists 0. eexists. split; [reflexivity|]. now exists x.
Qed.

(** X8.  When [Start] returns [ErrTimeout] its worker goroutine is
    left behind.  It has not ended and never ends, whatever happens
    afterwards; left to itself it goes on until it blocks in the
    send [r.complete <- err], which nobody receives: from there no
    action of the runner is possible any more, only signals can
    still arrive. *)
Theorem timeout_leaves_worker_behind (ts : list Task) (ls : list label)
    (s : State Task) :
  run ls (init ts) = Some s ->
  sup s = SReturned (Some ErrTimeout) ->
  (forall ls' s',
     run ls' s = Some s' ->
     sup s' = SReturned (Some ErrTimeout) /\ wrk s' <> WDone)
  /\ exists k s',
       run (repeat LWrk k) s = Some s'
       /\ (exists e, wrk s' = WSend e)
       /\ forall l, l <> LSignal -> step l s' = None.
Proof.
  intros Hrun He.
  pose proof (reach_Inv ts ls Hrun) as HI.
  destruct (timed_out_cases HI He) as (Ha & Hi & Hd).
  split.
  - intros ls' s' Hrun'.
    destruct (@returned_run ls' s s' _ He Hrun') as (He' & _ & _ & _ & Hn).
    auto.
  - destruct (worker_blocks s He Hi Hd) as (k & s' & Hrun' & e & Hw).
    exists k, s'. split; [exact Hrun'|]. split; [now exists e|].
    destruct (@returned_run _ s s' _ He Hrun') as (He' & _ & Ha' & _).
    specialize (Ha' Ha).
    intros l Hl. destruct l; simpl; try congruence.
    + unfold supervisor_step. now rewrite He'.
    + now rewrite He'.
    + now rewrite He'.
    + unfold worker_step. now rewrite Hw.
    + now rewrite Ha'.
Qed.

(** X9.  A timeout does not cancel the tasks.  If [Start] has
    returned [ErrTimeout] while no interrupt had been received and
    none is waiting in [r.interrupt], the worker left to itself still
    calls every remaining task: in the end every task has been called
    once, in index order, and has returned, and the worker is blocked
    sending nil. *)
Theorem timeout_does_not_cancel_tasks (ts : list Task) (ls : list label)
    (s : State Task) :
  run ls (init ts) = Some s ->
  sup s = SReturned (Some ErrTimeout) ->
  observations (history s) = [] ->
  Chan.try_recv (interrupt s) = Chan.RecvNotReady unit ->
  exists k s',
    run (repeat LWrk k) s = Some s'
    /\ wrk s' = WSend None
    /\ sup s' = SReturned (Some ErrTimeout)
    /\ calls (history s') = in_order ts
    /\ returns (history s') = length ts.
Proof.
  intros Hrun He Hobs Hic.
  pose proof (reach_Inv ts ls Hrun) as HI.
  destruct (timed_out_cases HI He) as (Ha & Hi & Hd).
  assert (Hgo : exists k s',
            run (repeat LWrk k) s = Some s' /\ wrk s' = WSend None).
  { pose proof (inv_tasks HI) as Ht. pose proof (inv_worker HI) as Hw.
    destruct s as [ic tc tks ar nt sp wk h]. simpl in *. subst tks sp.
    assert (Hnone : nth_error ts (length ts) = None)
      by (apply nth_error_None; lia).
    unfold worker_inv, result_ok in Hw. simpl in Hw.
    destruct wk as [|i|i| |[x|]|[x|]|]; try congruence.
    - destruct Hw as (Hle & _).
      destruct (@loop_runs Task ts (length ts - i) i ic tc ar nt
                  (SReturned (Some ErrTimeout)) h Hic ltac:(lia))
        as (h' & Hloop).
      replace (i + (length ts - i)) with (length ts) in Hloop by lia.
      exists (2 * (length ts - i) + 2). eexists.
      rewrite repeat_app, run_app, Hloop. cbn [repeat run step].
      unfold worker_step at 1. cbn [wrk tasks]. rewrite Hnone.
      split; reflexivity.
    - destruct Hw as (Hlt & _).
      destruct (@loop_runs Task ts (length ts - S i) (S i) ic tc ar nt
                  (SReturned (Some ErrTimeout)) (h ++ [EvRet i]) Hic
                  ltac:(lia)) as (h' & Hloop).
      replace (S i + (length ts - S i)) with (length ts) in Hloop by lia.
      exists (S (2 * (length ts - S i) + 2)). eexists.
      cbn [repeat run step]. unfold worker_step at 1. cbn [wrk].
      unfold log, set_wrk. cbn [interrupt timeout tasks armed notified sup
                                 wrk history].
      rewrite repeat_app, run_app, Hloop. cbn [repeat run step].
      unfold worker_step at 1. cbn [wrk tasks]. rewrite Hnone.
      split; reflexivity.
    - destruct Hw as (j & _ & _ & Hj). congruence.
    - destruct Hw as (_ & _ & j & _ & _ & Hj). congruence.
    - exists 1. eexists. split; reflexivity.
    - destruct Hw as (_ & _ & j & _ & _ & Hj). congruence.
    - exists 0. eexists. split; reflexivity. }
  destruct Hgo as (k & s' & Hrun' & Hw').
  exists k, s'. split; [exact Hrun'|]. split; [exact Hw'|].
  destruct (@returned_run _ s s' _ He Hrun') as (He' & _).
  split; [exact He'|].
  pose proof (run_Inv _ HI Hrun') as HI'.
  pose proof (inv_worker HI') as Hwi.
  unfold worker_inv in Hwi. rewrite Hw' in Hwi.
  destruct Hwi as ((Hc & Hr) & _).
  split; [|exact Hr]. rewrite Hc. apply in_order_all. lia.
Qed.

(** X10.  Once the timer fires, [Start] returns without waiting for
    the worker.  From every state of every run in which [Start] has
    not returned, at most four actions of the supervisor and of the
    timer, and none of the worker, make [Start] return [ErrTimeout];
    no task is called or returns meanwhile. *)
Theorem Start_returns_at_deadline (ts : list Task) (ls : list label)
    (s : State Task) :
  run ls (init ts) = Some s ->
  (forall e, sup s <> SReturned e) ->
  exists ls' s',
    run ls' s = Some s'
    /\ Forall (fun l => l = LSup \/ l = LRecvTimeout \/ l = LDeadline) ls'
    /\ length ls' <= 4
    /\ sup s' = SReturned (Some ErrTimeout)
    /\ history s' = history s.
Proof.
  intros Hrun Hnot.
  pose proof (reach_Inv ts ls Hrun) as HI.
  pose proof (inv_supervisor HI) as Hs.
  pose proof (inv_timer HI) as Htm.
  pose proof (inv_fired HI) as Hf.
  destruct s as [ic tc tks ar nt sp wk h]. simpl in *.
  unfold supervisor_inv, timeout_ready in *. simpl in *.
  destruct ar.
  - (* the timer has not fired *)
    rewrite (Htm eq_refl).
    destruct sp as [| | | |e].
    + exists [LSup; LSup; LDeadline; LRecvTimeout]. eexists.
      split; [reflexivity|]. split; [repeat (apply Forall_cons; [auto|]); apply Forall_nil|].
      simpl. split; [lia|]. split; reflexivity.
    + exists [LSup; LDeadline; LRecvTimeout]. eexists.
      split; [reflexivity|]. split; [repeat (apply Forall_cons; [auto|]); apply Forall_nil|].
      simpl. split; [lia|]. split; reflexivity.
    + exists [LDeadline; LRecvTimeout]. eexists.
      split; [reflexivity|]. split; [repeat (apply Forall_cons; [auto|]); apply Forall_nil|].
      simpl. split; [lia|]. split; reflexivity.
    + exists [LDeadline]. eexists.
      split; [reflexivity|]. split; [repeat (apply Forall_cons; [auto|]); apply Forall_nil|].
      simpl. split; [lia|]. split; reflexivity.
    + now destruct (Hnot e).
  - (* the timer has fired *)
    destruct (Hf eq_refl) as [[e He]|Hready]; [now destruct (Hnot e)|].
    destruct sp as [| | | |e].
    + exists [LSup; LSup; LRecvTimeout].
      destruct (Chan.try_recv tc) as [u c'| |] eqn:Htc; try discriminate;
        eexists; (split; [cbn; rewrite Htc; reflexivity|]);
        (split; [repeat (apply Forall_cons; [auto|]); apply Forall_nil|]);
        simpl; (split; [lia|]); split; reflexivity.
    + exists [LSup; LRecvTimeout].
      destruct (Chan.try_recv tc) as [u c'| |] eqn:Htc; try discriminate;
        eexists; (split; [cbn; rewrite Htc; reflexivity|]);
        (split; [repeat (apply Forall_cons; [auto|]); apply Forall_nil|]);
        simpl; (split; [lia|]); split; reflexivity.
    + exists [LRecvTimeout].
      destruct (Chan.try_recv tc) as [u c'| |] eqn:Htc; try discriminate;
        eexists; (split; [cbn; rewrite Htc; reflexivity|]);
        (split; [repeat (apply Forall_cons; [auto|]); apply Forall_nil|]);
        simpl; (split; [lia|]); split; reflexivity.
    + destruct Hs as (_ & _ & _ & Hno). rewrite Hno in Hready.
      discriminate.
    + now destruct (Hnot e).
Qed.

(** X11.  Calls of [Add] accumulate: adding the tasks in several
    calls gives the runner that one call with all of them gives, and
    [Start] runs them in the order in which they were added. *)
Theorem Add_accumulates (batches : list (list Task)) :
  fold_left (fun s ts => Add ts s) batches New = init (concat batches)
  /\ exists s,
       run (quiet_schedule (length (concat batches)))
           (fold_left (fun s ts => Add ts s) batches New) = Some s
       /\ sup s = SReturned None
       /\ calls (history s) = in_order (concat batches).
Proof.
  assert (Hfold : forall s : State Task,
            fold_left (fun s ts => Add ts s) batches s
            = Add (concat batches) s).
  { induction batches as [|b bs IH]; intros s; simpl.
    - destruct s. unfold Add. simpl. now rewrite app_nil_r.
    - rewrite IH. unfold Add. simpl. now rewrite app_assoc. }
  split; [apply Hfold|].
  rewrite Hfold. fold (init (concat batches)).
  destruct (quiet_run (concat batches)) as (h & Hq).
  eexists. split; [exact Hq|]. split; [reflexivity|].
  pose proof (reach_Inv _ _ Hq) as HI.
  pose proof (inv_worker HI) as Hw.
  unfold worker_inv in Hw. simpl in Hw.
  destruct Hw as (e & He & Hok). injection He as <-.
  destruct Hok as ((Hc & _) & _). rewrite Hc.
  apply in_order_all. lia.
Qed.

End Returned.

(** *** The driver's [main] *)

(** How the program ends: [os.Exit(code)], or [main] returns. *)
Inductive outcome : Type :=
| Exit (code : Z)
| Ended.

(** What [main] does with the result of [Start].  The [switch] has
    no default: any other error falls through to the end. *)
Definition main_outcome (err : option error) : outcome :=
  match err with
  | None => Ended
  | Some ErrTimeout => Exit 1
  | Some ErrInterrupt => Exit 2
  | Some (ErrorString _) => Ended
  end.

(** X12.  What the end of the driver says about its three tasks.
    [main] returns only when [Start] returned nil, and then the
    three tasks were called in order with 0, 1, 2 and have returned;
    exit status 1 means that the timer had fired; exit status 2
    means that an interrupt was received before some task, and only
    the tasks before it were called.  No other outcome occurs: no
    error reaches the end of the [switch]. *)
Theorem main_outcomes (Task : Type) (t0 t1 t2 : Task) (ls : list label)
    (s : State Task) (e : option error) :
  run ls (Add [t0; t1; t2] New) = Some s ->
  sup s = SReturned e ->
  match main_outcome e with
  | Ended =>
      e = None
      /\ calls (history s) = [(t0, 0%Z); (t1, 1%Z); (t2, 2%Z)]
      /\ returns (history s) = 3
  | Exit code =>
      (code = 1%Z /\ e = Some ErrTimeout /\ armed s = false)
      \/ (code = 2%Z /\ e = Some ErrInterrupt
          /\ exists i, i < 3
               /\ observations (history s) = [i]
               /\ calls (history s)
                  = firstn i [(t0, 0%Z); (t1, 1%Z); (t2, 2%Z)])
  end.
Proof.
  intros Hrun He.
  pose proof (reach_Inv [t0; t1; t2] ls Hrun) as HI.
  destruct (returned_cases HI He) as [[Hd Hok]|(-> & Ha & _)].
  - unfold result_ok, done_upto in Hok.
    destruct e as [x|].
    + destruct Hok as (-> & _ & i & Hi & (Hc & _) & Hobs). simpl.
      right. splits; auto. exists i. splits; auto.
    + destruct Hok as ((Hc & Hr) & _). simpl. splits; auto.
  - simpl. left. auto.
Qed.

Lemma Start_return_ends_worker_witness :
  wrk (final (quiet_schedule 3) driver_tasks) = WDone
  /\ history (final (quiet_schedule 3 ++ [LSignal; LDeadline]) driver_tasks)
     = history (final (quiet_schedule 3) driver_tasks).
Proof.
  assert (Hrun : run (quiet_schedule 3) (init driver_tasks)
                 = Some (final (quiet_schedule 3) driver_tasks))
    by (vm_compute; reflexivity).
  assert (He : sup (final (quiet_schedule 3) driver_tasks) = SReturned None)
    by (vm_compute; reflexivity).
  assert (Hrun' : run [LSignal; LDeadline]
                      (final (quiet_schedule 3) driver_tasks)
                  = Some (final (quiet_schedule 3 ++ [LSignal; LDeadline])
                                driver_tasks))
    by (vm_compute; reflexivity).
  destruct (@Start_return_ends_worker nat _ _ _ _ _ _ Hrun He
              ltac:(discriminate) Hrun')
    as (H1 & _ & _ & _ & H2).
  split; [exact H1|exact H2].
Defined.

(** The timer fires while task 0 is running. *)
Definition timed_out_schedule : list label :=
  [LSup; LSup; LSup; LWrk; LDeadline].

Lemma timeout_leaves_worker_behind_witness :
  sup (final (timed_out_schedule ++ [LWrk; LSignal; LWrk]) driver_tasks)
  = SReturned (Some ErrTimeout).
Proof.
  assert (Hrun : run timed_out_schedule (init driver_tasks)
                 = Some (final timed_out_schedule driver_tasks))
    by (vm_compute; reflexivity).
  assert (He : sup (final timed_out_schedule driver_tasks)
               = SReturned (Some ErrTimeout))
    by (vm_compute; reflexivity).
  assert (Hrun' : run [LWrk; LSignal; LWrk]
                      (final timed_out_schedule driver_tasks)
                  = Some (final (timed_out_schedule ++ [LWrk; LSignal; LWrk])
                                driver_tasks))
    by (vm_compute; reflexivity).
  destruct (@timeout_leaves_worker_behind nat _ _ _ Hrun He) as (H & _).
  exact (proj1 (H _ _ Hrun')).
Defined.

Lemma timeout_does_not_cancel_tasks_witness :
  exists k s',
    run (repeat LWrk k) (final timed_out_schedule driver_tasks) = Some s'
    /\ wrk s' = WSend None
    /\ calls (history s') = [(1, 0%Z); (2, 1%Z); (3, 2%Z)].
Proof.
  assert (Hrun : run timed_out_schedule (init driver_tasks)
                 = Some (final timed_out_schedule driver_tasks))
    by (vm_compute; reflexivity).
  destruct (@timeout_does_not_cancel_tasks nat _ _ _ Hrun)
    as (k & s' & H1 & H2 & _ & H3 & _);
    try (vm_compute; reflexivity).
  exists k, s'. split; [exact H1|]. split; [exact H2|].
  rewrite H3. vm_compute. reflexivity.
Defined.

Lemma Start_returns_at_deadline_witness :
  exists ls' s',
    run ls' (final [LSup; LSup; LWrk; LWrk] driver_tasks) = Some s'
    /\ length ls' <= 4
    /\ sup s' = SReturned (Some ErrTimeout)
    /\ calls (history s') = [(1, 0%Z)].
Proof.
  assert (Hrun : run [LSup; LSup; LWrk; LWrk] (init driver_tasks)
                 = Some (final [LSup; LSup; LWrk; LWrk] driver_tasks))
    by (vm_compute; reflexivity).
  destruct (@Start_returns_at_deadline nat _ _ _ Hrun)
    as (ls' & s' & H1 & _ & H2 & H3 & H4).
  - intros e. vm_compute. discriminate.
  - exists ls', s'. split; [exact H1|]. split; [exact H2|].
    split; [exact H3|]. rewrite H4. vm_compute. reflexivity.
Defined.

Lemma main_outcomes_witness :
  calls (history (final (quiet_schedule 3) driver_tasks))
  = [(1, 0%Z); (2, 1%Z); (3, 2%Z)]
  /\ returns (history (final (quiet_schedule 3) driver_tasks)) = 3.
Proof.
  assert (Hrun : run (quiet_schedule 3) (Add [1; 2; 3] New)
                 = Some (final (quiet_schedule 3) driver_tasks))
    by (vm_compute; reflexivity).
  assert (He : sup (final (quiet_schedule 3) driver_tasks) = SReturned None)
    by (vm_compute; reflexivity).
  pose proof (@main_outcomes nat _ _ _ _ _ _ Hrun He) as H. simpl in H.
  destruct H as (_ & H1 & H2). split; [exact H1|exact H2].
Defined.
End Runner.
(** ** Package work *)

Module Work.

Section Work.

(** The values of the [Worker] interface handed to [Run]. *)
Variable Worker : Type.

(** Where one of the pool's goroutines stands.  A work item carries
    the number of the [Run] call that handed it over (its ticket). *)
Inductive goroutine : Type :=
| GRecv                             (* in [range p.work]: waiting for a value, or for the close *)
| GTask (ticket : nat) (w : Worker) (* [w.Task()] is running *)
| GLeft                             (* the loop has ended; next: [p.wg.Done()] *)
| GExit.                            (* the goroutine has ended *)

(** Where the goroutine that shuts the pool down stands. *)
Inductive caller : Type :=
| CRun            (* [Shutdown] has not been called *)
| CWait           (* [close(p.work)] is done; in [p.wg.Wait()] *)
| CReturned.      (* [Shutdown] has returned *)

(** What the goroutines have done so far, oldest first (ghost state). *)
Inductive event : Type :=
| EvBegin (g : nat) (ticket : nat) (w : Worker)   (* goroutine [g] called [w.Task()] *)
| EvEnd (g : nat) (ticket : nat) (w : Worker).    (* that call returned *)

(** [type Pool struct] and its goroutines.  [work] is unbuffered: it
    holds no value, only its closed flag. *)
Record State : Type := mkState {
  closed : bool;                (* [close(p.work)] has been called *)
  wg : Z;                       (* the counter of [p.wg] *)
  goroutines : list goroutine;
  shutdown : caller;
  submitted : list Worker;      (* the items of the [Run] calls that have returned *)
  history : list event
}.

(** [New(maxGoroutines)]; [None]: [p.wg.Add] panics on a negative
    counter. *)
Definition New (maxGoroutines : Z) : option State :=
  if (maxGoroutines <? 0)%Z then None
  else Some (mkState false maxGoroutines
                     (repeat GRecv (Z.to_nat maxGoroutines)) CRun [] []).

(** The list [l] with [x] at index [g]. *)
Fixpoint update (A : Type) (g : nat) (x : A) (l : list A) : list A :=
  match l, g with
  | [], _ => []
  | _ :: l', O => x :: l'
  | y :: l', S g' => y :: update g' x l'
  end.

(** Who takes the next atomic action. *)
Inductive label : Type :=
| LRun (w : Worker) (g : nat)   (* a call [Run(w)] hands [w] to goroutine [g] and returns *)
| LGoroutine (g : nat)          (* goroutine [g]: its next action *)
| LClose                        (* [Shutdown]: [close(p.work)] *)
| LWait.                        (* [Shutdown]: [p.wg.Wait()] returns *)

(** One atomic action.  [None]: the action is not possible in [s].
    - [LRun w g]: the send [p.work <- w] meets the receive of
      goroutine [g], which calls [w.Task()].  No [Run] is made once
      [Shutdown] has been called (it would panic on the closed
      channel).
    - [LGoroutine g]: a running task returns and the goroutine goes
      back to its receive; a goroutine waiting on the closed channel
      leaves its loop; a goroutine that has left its loop calls
      [p.wg.Done()] and ends.
    - [LClose]: [Shutdown] closes [p.work].
    - [LWait]: [p.wg.Wait()] returns; the counter is zero. *)
Definition step (l : label) (s : State) : option State :=
  match l with
  | LRun w g =>
      match shutdown s, closed s, nth_error (goroutines s) g with
      | CRun, false, Some GRecv =>
          let ticket := length (submitted s) in
          Some (mkState (closed s) (wg s)
                        (update g (GTask ticket w) (goroutines s))
                        (shutdown s) (submitted s ++ [w])
                        (history s ++ [EvBegin g ticket w]))
      | _, _, _ => None
      end
  | LGoroutine g =>
      match nth_error (goroutines s) g with
      | Some (GTask ticket w) =>
          Some (mkState (closed s) (wg s)
                        (update g GRecv (goroutines s))
                        (shutdown s) (submitted s)
                        (history s ++ [EvEnd g ticket w]))
      | Some GRecv =>
          if closed s
          then Some (mkState (closed s) (wg s)
                             (update g GLeft (goroutines s))
                             (shutdown s) (submitted s) (history s))
          else None
      | Some GLeft =>
          if (wg s - 1 <? 0)%Z then None
          else Some (mkState (closed s) (wg s - 1)
                             (update g GExit (goroutines s))
                             (shutdown s) (submitted s) (history s))
      | Some GExit => None
      | None => None
      end
  | LClose =>
      match shutdown s, closed s with
      | CRun, false =>
          Some (mkState true (wg s) (goroutines s) CWait
                        (submitted s) (history s))
      | _, _ => None
      end
  | LWait =>
      match shutdown s with
      | CWait =>
          if (wg s =? 0)%Z
          then Some (mkState (closed s) (wg s) (goroutines s) CReturned
                             (submitted s) (history s))
          else None
      | _ => None
      end
  end.

Fixpoint run (ls : list label) (s : State) : option State :=
  match ls with
  | [] => Some s
  | l :: ls' =>
      match step l s with
      | Some s' => run ls' s'
      | None => None
      end
  end.

(** Observations on the history: the calls of [Task] begun, and those
    that have returned, each with its ticket. *)
Fixpoint begun (h : list event) : list (nat * Worker) :=
  match h with
  | [] => []
  | EvBegin _ k w :: h' => (k, w) :: begun h'
  | EvEnd _ _ _ :: h' => begun h'
  end.

Fixpoint finished (h : list event) : list (nat * Worker) :=
  match h with
  | [] => []
  | EvBegin _ _ _ :: h' => finished h'
  | EvEnd _ k w :: h' => (k, w) :: finished h'
  end.

(** The [Run] calls that have returned, each with its ticket. *)
Definition tickets (ws : list Worker) : list (nat * Worker) :=
  combine (seq 0 (length ws)) ws.

(** *** What every state of a run satisfies *)

(** The call of [Task] a goroutine is in, if any. *)
Definition running_of (x : goroutine) : list (nat * Worker) :=
  match x with GTask k w => [(k, w)] | _ => [] end.

Definition running (gs : list goroutine) : list (nat * Worker) :=
  flat_map running_of gs.

(** A goroutine that has not called [p.wg.Done()] yet. *)
Definition alive (x : goroutine) : nat :=
  match x with GExit => 0 | _ => 1 end.

Fixpoint pending (gs : list goroutine) : nat :=
  match gs with
  | [] => 0
  | x :: gs' => alive x + pending gs'
  end.

Lemma begun_app (h h' : list event) : begun (h ++ h') = begun h ++ begun h'.
Proof.
  induction h as [|[g k w|g k w] h IH]; simpl; auto. now rewrite IH.
Qed.

Lemma finished_app (h h' : list event) :
  finished (h ++ h') = finished h ++ finished h'.
Proof.
  induction h as [|[g k w|g k w] h IH]; simpl; auto. now rewrite IH.
Qed.

Lemma update_length (A : Type) (g : nat) (x : A) (l : list A) :
  length (update g x l) = length l.
Proof.
  revert g. induction l as [|y l IH]; intros [|g]; simpl; auto.
Qed.

Lemma update_running (g : nat) (x old : goroutine) (gs : list goroutine) :
  nth_error gs g = Some old ->
  Permutation (running_of old ++ running (update g x gs))
              (running_of x ++ running gs).
Proof.
  revert g. induction gs as [|y gs IH]; intros [|g] H; simpl in *;
    try discriminate.
  - injection H as ->. unfold running; simpl.
    rewrite !app_assoc. apply Permutation_app_tail, Permutation_app_comm.
  - specialize (IH g H). unfold running in *; simpl.
    rewrite (Permutation_app_swap_app (running_of old)).
    rewrite (Permutation_app_swap_app (running_of x)).
    now apply Permutation_app_head.
Qed.

Lemma update_pending (g : nat) (x old : goroutine) (gs : list goroutine) :
  nth_error gs g = Some old ->
  alive old + pending (update g x gs) = alive x + pending gs.
Proof.
  revert g. induction gs as [|y gs IH]; intros [|g] H; simpl in *;
    try discriminate.
  - injection H as ->. lia.
  - specialize (IH g H). lia.
Qed.

Lemma pending_zero (gs : list goroutine) :
  pending gs = 0 -> Forall (eq GExit) gs.
Proof.
  induction gs as [|x gs IH]; simpl; intros H; constructor.
  - destruct x; simpl in H; try lia. reflexivity.
  - apply IH. lia.
Qed.

Lemma exited_running (gs : list goroutine) :
  Forall (eq GExit) gs -> running gs = [].
Proof.
  induction 1 as [|x gs <- _ IH]; unfold running in *; simpl; auto.
Qed.

Lemma exited_nth (gs : list goroutine) (g : nat) (x : goroutine) :
  Forall (eq GExit) gs -> nth_error gs g = Some x -> x = GExit.
Proof.
  intros H Hn. apply nth_error_In in Hn.
  rewrite Forall_forall in H. symmetry. now apply H.
Qed.

Lemma tickets_from_snoc (ws : list Worker) (w : Worker) (a : nat) :
  combine (seq a (length (ws ++ [w]))) (ws ++ [w])
  = combine (seq a (length ws)) ws ++ [(a + length ws, w)].
Proof.
  revert a. induction ws as [|x ws IH]; intros a; simpl.
  - now rewrite Nat.add_0_r.
  - rewrite IH. f_equal. f_equal. f_equal. f_equal. lia.
Qed.

Lemma tickets_snoc (ws : list Worker) (w : Worker) :
  tickets (ws ++ [w]) = tickets ws ++ [(length ws, w)].
Proof. unfold tickets. now rewrite tickets_from_snoc. Qed.

Lemma tickets_fst (ws : list Worker) :
  map fst (tickets ws) = seq 0 (length ws).
Proof.
  unfold tickets. generalize 0.
  induction ws as [|x ws IH]; intros a; simpl; auto. now rewrite IH.
Qed.

Lemma tickets_snd (ws : list Worker) : map snd (tickets ws) = ws.
Proof.
  unfold tickets. generalize 0.
  induction ws as [|x ws IH]; intros a; simpl; auto. now rewrite IH.
Qed.

Record Inv (n : nat) (s : State) : Prop := mkInv {
  inv_length : length (goroutines s) = n;
  inv_wg : wg s = Z.of_nat (pending (goroutines s));
  inv_begun : begun (history s) = tickets (submitted s);
  inv_perm : Permutation (begun (history s))
                         (finished (history s) ++ running (goroutines s));
  inv_returned : shutdown s = CReturned -> Forall (eq GExit) (goroutines s)
}.

Lemma New_Inv (n : Z) (s : State) :
  New n = Some s -> Inv (Z.to_nat n) s.
Proof.
  unfold New. destruct (n <? 0)%Z eqn:Hn; [discriminate|].
  intros [= <-]. apply Z.ltb_ge in Hn.
  constructor; simpl; try discriminate.
  - apply repeat_length.
  - rewrite <- (Z2Nat.id n Hn) at 1. f_equal.
    induction (Z.to_nat n) as [|k IH]; simpl; auto.
  - reflexivity.
  - induction (Z.to_nat n) as [|k IH]; simpl; auto.
Qed.

Lemma goroutine_step_Inv (n : nat) (l : label) (s s' : State) :
  Inv n s -> step l s = Some s' -> Inv n s'.
Proof.
  intros [Hlen Hwg Hb Hp Hr] Hstep.
  destruct s as [cl c gs sh sub h]; simpl in *.
  destruct l as [w g|g| |]; simpl in Hstep.
  - (* a hand-over *)
    destruct sh; try discriminate. destruct cl; try discriminate.
    destruct (nth_error gs g) as [[| | |]|] eqn:Hg; try discriminate.
    injection Hstep as <-.
    pose proof (update_running g (GTask (length sub) w) gs Hg) as Hu.
    pose proof (update_pending g (GTask (length sub) w) gs Hg) as Ha.
    simpl in Hu, Ha.
    constructor; simpl; try discriminate.
    + now rewrite update_length.
    + rewrite Hwg. f_equal. lia.
    + now rewrite begun_app, tickets_snoc, Hb.
    + rewrite begun_app, finished_app; simpl. rewrite app_nil_r.
      rewrite Hu, Hp. rewrite Permutation_app_comm. simpl.
      apply Permutation_middle.
  - (* a goroutine *)
    destruct (nth_error gs g) as [[|k w| |]|] eqn:Hg; try discriminate.
    + destruct cl; [|discriminate]. injection Hstep as <-.
      pose proof (update_running g GLeft gs Hg) as Hu.
      pose proof (update_pending g GLeft gs Hg) as Ha.
      simpl in Hu, Ha.
      constructor; simpl; auto.
      * now rewrite update_length.
      * rewrite Hwg. f_equal. lia.
      * now rewrite Hu.
      * intros Hsh. specialize (Hr Hsh).
        pose proof (@exited_nth _ g _ Hr Hg). discriminate.
    + injection Hstep as <-.
      pose proof (update_running g GRecv gs Hg) as Hu.
      pose proof (update_pending g GRecv gs Hg) as Ha.
      simpl in Hu, Ha.
      constructor; simpl; auto.
      * now rewrite update_length.
      * rewrite Hwg. f_equal. lia.
      * now rewrite begun_app, app_nil_r.
      * rewrite begun_app, finished_app; simpl. rewrite app_nil_r.
        rewrite Hp. rewrite <- app_assoc. apply Permutation_app_head.
        simpl. exact (Permutation_sym Hu).
      * intros Hsh. specialize (Hr Hsh).
        pose proof (@exited_nth _ g _ Hr Hg). discriminate.
    + destruct (c - 1 <? 0)%Z; [discriminate|]. injection Hstep as <-.
      pose proof (update_running g GExit gs Hg) as Hu.
      pose proof (update_pending g GExit gs Hg) as Ha.
      simpl in Hu, Ha.
      constructor; simpl; auto.
      * now rewrite update_length.
      * rewrite Hwg. lia.
      * now rewrite Hu.
      * intros Hsh. specialize (Hr Hsh).
        pose proof (@exited_nth _ g _ Hr Hg). discriminate.
  - (* close *)
    destruct sh; try discriminate. destruct cl; try discriminate.
    injection Hstep as <-. constructor; simpl; auto. discriminate.
  - (* wait *)
    destruct sh; try discriminate.
    destruct (c =? 0)%Z eqn:Hc; [|discriminate].
    injection Hstep as <-. apply Z.eqb_eq in Hc.
    constructor; simpl; auto.
    intros _. apply pending_zero. lia.
Qed.

Lemma goroutines_run_Inv (n : nat) (ls : list label) (s s' : State) :
  Inv n s -> run ls s = Some s' -> Inv n s'.
Proof.
  revert s. induction ls as [|l ls IH]; intros s HI Hrun; simpl in Hrun.
  - now injection Hrun as <-.
  - destruct (step l s) as [s1|] eqn:Hstep; [|discriminate].
    eapply IH; [|exact Hrun]. eapply goroutine_step_Inv; eauto.
Qed.

Lemma goroutines_run_app (ls ls' : list label) (s : State) :
  run (ls ++ ls') s
  = match run ls s with Some s' => run ls' s' | None => None end.
Proof.
  revert s. induction ls as [|l ls IH]; intros s; simpl; auto.
  destruct (step l s); auto.
Qed.

(** Once [Shutdown] has returned nothing can happen. *)
Lemma returned_stuck (n : nat) (s : State) (l : label) :
  Inv n s -> shutdown s = CReturned -> step l s = None.
Proof.
  intros HI Hsh. pose proof (inv_returned HI Hsh) as Hex.
  destruct l as [w g|g| |]; simpl; rewrite ?Hsh; auto.
  destruct (nth_error (goroutines s) g) as [x|] eqn:Hg; auto.
  now rewrite (@exited_nth _ g _ Hex Hg).
Qed.

(** The items of the calls of [Run] in a schedule, in the order of
    the calls. *)
Fixpoint items (ls : list label) : list Worker :=
  match ls with
  | [] => []
  | LRun w _ :: ls' => w :: items ls'
  | _ :: ls' => items ls'
  end.

(** The pool's record of the items handed over is the items of the
    [Run] calls made. *)
Lemma step_submitted (l : label) (s s' : State) :
  step l s = Some s' -> submitted s' = submitted s ++ items [l].
Proof.
  destruct l as [w g|g| |]; simpl; intros Hstep.
  - destruct (shutdown s); try discriminate.
    destruct (closed s); try discriminate.
    destruct (nth_error (goroutines s) g) as [[| | |]|]; try discriminate.
    now injection Hstep as <-.
  - destruct (nth_error (goroutines s) g) as [[|k w| |]|]; try discriminate.
    + destruct (closed s); [|discriminate].
      injection Hstep as <-. simpl. now rewrite app_nil_r.
    + injection Hstep as <-. simpl. now rewrite app_nil_r.
    + destruct (wg s - 1 <? 0)%Z; [discriminate|].
      injection Hstep as <-. simpl. now rewrite app_nil_r.
  - destruct (shutdown s); try discriminate.
    destruct (closed s); try discriminate.
    injection Hstep as <-. simpl. now rewrite app_nil_r.
  - destruct (shutdown s); try discriminate.
    destruct (wg s =? 0)%Z; [|discriminate].
    injection Hstep as <-. simpl. now rewrite app_nil_r.
Qed.

Lemma run_submitted (ls : list label) (s s' : State) :
  run ls s = Some s' -> submitted s' = submitted s ++ items ls.
Proof.
  revert s. induction ls as [|l ls IH]; intros s Hrun; simpl in Hrun.
  - injection Hrun as <-. simpl. now rewrite app_nil_r.
  - destruct (step l s) as [s1|] eqn:Hstep; [|discriminate].
    rewrite (IH s1 Hrun), (@step_submitted l s s1 Hstep), <- app_assoc.
    f_equal. destruct l; reflexivity.
Qed.

Lemma New_submitted (n : Z) (s0 s : State) (ls : list label) :
  New n = Some s0 -> run ls s0 = Some s -> submitted s = items ls.
Proof.
  intros Hnew Hrun. rewrite (@run_submitted ls s0 s Hrun).
  unfold New in Hnew. destruct (n <? 0)%Z; [discriminate|].
  now injection Hnew as <-.
Qed.

(** C3.  A pool made by [New(n)], after any run in which [Shutdown]
    has returned:
    - the pool has its [n] goroutines and every one of them has ended;
    - the calls of [Task] that have returned are, up to their order,
      the items of the calls of [Run] made in the run, each under its
      own ticket (the number of its call): every item handed over
      was executed, by one goroutine, once, and nothing else was;
    - no action is possible any more, so nothing is executed after
      [Shutdown] has returned. *)
Theorem Shutdown_waits_for_all (n : Z) (s0 s : State) (ls : list label) :
  New n = Some s0 -> run ls s0 = Some s -> shutdown s = CReturned ->
  length (goroutines s) = Z.to_nat n
  /\ Forall (eq GExit) (goroutines s)
  /\ begun (history s) = tickets (submitted s)
  /\ Permutation (finished (history s)) (tickets (submitted s))
  /\ Permutation (map snd (finished (history s))) (submitted s)
  /\ NoDup (map fst (finished (history s)))
  /\ (forall l, step l s = None)
  /\ (forall ls' s', run ls' s = Some s' -> s' = s)
  /\ submitted s = items ls
  /\ begun (history s) = tickets (items ls)
  /\ Permutation (finished (history s)) (tickets (items ls))
  /\ Permutation (map snd (finished (history s))) (items ls).
Proof.
  intros Hnew Hrun Hsh.
  pose proof (@New_submitted n s0 s ls Hnew Hrun) as Hsub.
  pose proof (goroutines_run_Inv ls (New_Inv n Hnew) Hrun) as HI.
  pose proof (inv_returned HI Hsh) as Hex.
  assert (Hperm : Permutation (finished (history s)) (tickets (submitted s))).
  { rewrite <- (inv_begun HI). pose proof (inv_perm HI) as Hp.
    rewrite (exited_running Hex), app_nil_r in Hp. now symmetry. }
  splits.
  - apply (inv_length HI).
  - exact Hex.
  - apply (inv_begun HI).
  - exact Hperm.
  - rewrite <- (tickets_snd (submitted s)). now apply Permutation_map.
  - eapply Permutation_NoDup.
    + symmetry. apply Permutation_map. exact Hperm.
    + rewrite tickets_fst. apply seq_NoDup.
  - intros l. eapply returned_stuck; eauto.
  - intros ls' s' Hrun'. destruct ls' as [|l ls']; simpl in Hrun'.
    + now injection Hrun' as <-.
    + rewrite (returned_stuck l HI Hsh) in Hrun'. discriminate.
  - exact Hsub.
  - rewrite <- Hsub. apply (inv_begun HI).
  - now rewrite <- Hsub.
  - rewrite <- Hsub, <- (tickets_snd (submitted s)).
    now apply Permutation_map.
Qed.

(** *** [Shutdown] can return

    With at least one goroutine, any list of items can be handed
    over and executed, after which [Shutdown] returns. *)

Lemma nth_error_middle (A : Type) (l1 l2 : list A) (y : A) :
  nth_error (l1 ++ y :: l2) (length l1) = Some y.
Proof. induction l1 as [|x l1 IH]; simpl; auto. Qed.

Lemma update_middle (A : Type) (l1 l2 : list A) (x y : A) :
  update (length l1) x (l1 ++ y :: l2) = l1 ++ x :: l2.
Proof. induction l1 as [|z l1 IH]; simpl; auto. now rewrite IH. Qed.

(** Goroutine 0 takes every item in turn. *)
Definition serve (ws : list Worker) : list label :=
  flat_map (fun w => [LRun w 0; LGoroutine 0]) ws.

(** Each of the goroutines [a], ..., [a + b - 1] leaves its loop and
    ends. *)
Definition leave (a b : nat) : list label :=
  flat_map (fun g => [LGoroutine g; LGoroutine g]) (seq a b).

Lemma serve_runs (ws : list Worker) :
  forall (c : Z) (gs : list goroutine) (sub : list Worker) (h : list event),
  exists h',
    run (serve ws) (mkState false c (GRecv :: gs) CRun sub h)
    = Some (mkState false c (GRecv :: gs) CRun (sub ++ ws) h').
Proof.
  induction ws as [|w ws IH]; intros c gs sub h; simpl.
  - exists h. now rewrite app_nil_r.
  - destruct (IH c gs (sub ++ [w])
                ((h ++ [EvBegin 0 (length sub) w])
                   ++ [EvEnd 0 (length sub) w])) as (h' & Hh').
    exists h'. rewrite Hh'. now rewrite <- app_assoc.
Qed.

Lemma leave_one (l1 l2 : list goroutine) (b : nat) (sub : list Worker)
    (h : list event) :
  run [LGoroutine (length l1); LGoroutine (length l1)]
      (mkState true (Z.of_nat (S b)) (l1 ++ GRecv :: l2) CWait sub h)
  = Some (mkState true (Z.of_nat b) (l1 ++ GExit :: l2) CWait sub h).
Proof.
  cbn [run]. unfold step at 1.
  cbn [goroutines closed wg shutdown submitted history].
  rewrite nth_error_middle, update_middle.
  unfold step.
  cbn [goroutines closed wg shutdown submitted history].
  rewrite nth_error_middle, update_middle.
  replace (Z.of_nat (S b) - 1 <? 0)%Z with false
    by (symmetry; apply Z.ltb_ge; lia).
  now replace (Z.of_nat (S b) - 1)%Z with (Z.of_nat b) by lia.
Qed.

Lemma leave_runs (b : nat) :
  forall (a : nat) (sub : list Worker) (h : list event),
    run (leave a b)
        (mkState true (Z.of_nat b) (repeat GExit a ++ repeat GRecv b)
                 CWait sub h)
    = Some (mkState true 0 (repeat GExit (a + b)) CWait sub h).
Proof.
  induction b as [|b IH]; intros a sub h.
  - simpl. now rewrite app_nil_r, Nat.add_0_r.
  - change (leave a (S b))
      with ([LGoroutine a; LGoroutine a] ++ leave (S a) b).
    rewrite goroutines_run_app.
    pose proof (leave_one (repeat GExit a) (repeat GRecv b) b sub h) as H1.
    rewrite repeat_length in H1.
    change (repeat GRecv (S b)) with (GRecv :: repeat GRecv b).
    rewrite H1.
    replace (repeat GExit a ++ GExit :: repeat GRecv b)
      with (repeat GExit (S a) ++ repeat GRecv b)
      by (change (repeat GExit (S a)) with (GExit :: repeat GExit a);
          rewrite (repeat_cons a GExit), <- app_assoc; reflexivity).
    rewrite IH. now replace (S a + b) with (a + S b) by lia.
Qed.

Lemma Shutdown_can_return (n : nat) (ws : list Worker) :
  exists s0 s,
    New (Z.of_nat (S n)) = Some s0
    /\ run (serve ws ++ [LClose] ++ leave 0 (S n) ++ [LWait]) s0 = Some s
    /\ shutdown s = CReturned
    /\ submitted s = ws.
Proof.
  assert (Hnew : New (Z.of_nat (S n))
                 = Some (mkState false (Z.of_nat (S n))
                                 (GRecv :: repeat GRecv n) CRun [] [])).
  { unfold New.
    replace (Z.of_nat (S n) <? 0)%Z with false
      by (symmetry; apply Z.ltb_ge; lia).
    now rewrite Nat2Z.id. }
  destruct (serve_runs ws (Z.of_nat (S n)) (repeat GRecv n) [] [])
    as (h & Hserve).
  eexists. eexists. split; [exact Hnew|].
  rewrite goroutines_run_app, Hserve.
  change ([LClose] ++ leave 0 (S n) ++ [LWait])
    with (LClose :: (leave 0 (S n) ++ [LWait])).
  cbn [run]. unfold step at 1.
  cbn [wg goroutines submitted history shutdown closed].
  change (GRecv :: repeat GRecv n)
    with (repeat GExit 0 ++ repeat GRecv (S n)).
  rewrite goroutines_run_app, leave_runs. cbn. auto.
Qed.

End Work.

(** *** A pool of two goroutines and three items *)

Definition two_goroutines : State nat :=
  mkState false 2 [GRecv nat; GRecv nat] CRun [] [].

Definition three_items : list (label nat) :=
  [LRun 10 0; LRun 20 1; LGoroutine nat 1; LRun 30 1; LGoroutine nat 0;
   LGoroutine nat 1; LClose nat; LGoroutine nat 0; LGoroutine nat 0;
   LGoroutine nat 1; LGoroutine nat 1; LWait nat].

Definition final (ls : list (label nat)) : State nat :=
  match run ls two_goroutines with
  | Some s => s
  | None => two_goroutines
  end.

Lemma Shutdown_waits_for_all_witness :
  Permutation [(1, 20); (0, 10); (2, 30)] [(0, 10); (1, 20); (2, 30)]
  /\ goroutines (final three_items) = [GExit nat; GExit nat]
  /\ Permutation (map snd (finished (history (final three_items))))
                 [10; 20; 30].
Proof.
  assert (Hrun : run three_items two_goroutines = Some (final three_items))
    by (vm_compute; reflexivity).
  assert (Hsh : shutdown (final three_items) = CReturned)
    by (vm_compute; reflexivity).
  destruct (@Shutdown_waits_for_all nat 2 two_goroutines (final three_items)
              three_items eq_refl Hrun Hsh)
    as (_ & _ & _ & H & _ & _ & _ & _ & _ & _ & _ & H').
  split; [|split; [vm_compute; reflexivity|exact H']].
  vm_compute in H. exact H.
Defined.


(** *** Before and during [Shutdown] *)

Section Lifecycle.

Variable Worker : Type.

(** A goroutine that is inside its [range] loop. *)
Definition in_loop (x : goroutine Worker) : bool :=
  match x with
  | GRecv _ => true
  | GTask _ _ => true
  | _ => false
  end.

(** The channel is closed by [Shutdown] and by nothing else, and no
    goroutine leaves its loop before that. *)
Record Open (s : State Worker) : Prop := mkOpen {
  open_closed : closed s = match shutdown s with CRun => false | _ => true end;
  open_loop : closed s = false ->
              Forall (fun x => in_loop x = true) (goroutines s)
}.

Lemma update_Forall (A : Type) (P : A -> Prop) (g : nat) (x : A)
    (l : list A) :
  Forall P l -> P x -> Forall P (update g x l).
Proof.
  intros Hl Hx. revert g.
  induction Hl as [|y l Hy Hl IH]; intros [|g]; simpl; auto.
Qed.

Lemma Forall_nth_error (A : Type) (P : A -> Prop) (l : list A) (g : nat)
    (x : A) :
  Forall P l -> nth_error l g = Some x -> P x.
Proof.
  intros Hl Hg. apply nth_error_In in Hg.
  rewrite Forall_forall in Hl. now apply Hl.
Qed.

Lemma New_Open (n : Z) (s : State Worker) : New Worker n = Some s -> Open s.
Proof.
  unfold New. destruct (n <? 0)%Z; [discriminate|]. intros [= <-].
  constructor; simpl; auto. intros _.
  induction (Z.to_nat n) as [|k IH]; simpl; auto.
Qed.

Lemma step_Open (l : label Worker) (s s' : State Worker) :
  Open s -> step l s = Some s' -> Open s'.
Proof.
  intros [Hc Hl] Hstep.
  destruct s as [cl c gs sh sub h]. simpl in *.
  destruct l as [w g|g| |]; simpl in Hstep.
  - destruct sh; try discriminate. destruct cl; try discriminate.
    destruct (nth_error gs g) as [[| | |]|]; try discriminate.
    injection Hstep as <-. constructor; simpl; auto.
    intros _. apply update_Forall; auto.
  - destruct (nth_error gs g) as [[|k w| |]|] eqn:Hg; try discriminate.
    + destruct cl; [|discriminate]. injection Hstep as <-.
      constructor; simpl; auto; discriminate.
    + injection Hstep as <-. constructor; simpl; auto.
      intros Hcl. apply update_Forall; auto.
    + destruct (c - 1 <? 0)%Z; [discriminate|]. injection Hstep as <-.
      constructor; simpl; auto.
      intros Hcl. pose proof (Forall_nth_error _ (Hl Hcl) Hg) as Hx.
      discriminate Hx.
  - destruct sh; try discriminate. destruct cl; try discriminate.
    injection Hstep as <-. constructor; simpl; auto; discriminate.
  - destruct sh; try discriminate.
    destruct (c =? 0)%Z; [|discriminate]. injection Hstep as <-.
    constructor; simpl; auto.
Qed.

Lemma run_Open (ls : list (label Worker)) (s s' : State Worker) :
  Open s -> run ls s = Some s' -> Open s'.
Proof.
  revert s. induction ls as [|l ls IH]; intros s HO Hrun; simpl in Hrun.
  - now injection Hrun as <-.
  - destruct (step l s) as [s1|] eqn:Hstep; [|discriminate].
    eapply IH; [|exact Hrun]. eapply step_Open; eauto.
Qed.

Lemma pending_le_length (gs : list (goroutine Worker)) :
  pending gs <= length gs.
Proof.
  induction gs as [|x gs IH]; simpl; auto. destruct x; simpl; lia.
Qed.

Lemma pending_in_loop (gs : list (goroutine Worker)) :
  Forall (fun x => in_loop x = true) gs -> pending gs = length gs.
Proof.
  induction 1 as [|x gs Hx _ IH]; simpl; auto.
  destruct x; try discriminate; simpl; lia.
Qed.

Lemma exited_pending (gs : list (goroutine Worker)) :
  Forall (eq (GExit Worker)) gs -> pending gs = 0.
Proof. induction 1 as [|x gs <- _ IH]; simpl; auto. Qed.

Lemma running_le_length (gs : list (goroutine Worker)) :
  length (running gs) <= length gs.
Proof.
  unfold running.
  induction gs as [|x gs IH]; simpl; auto.
  rewrite length_app. destruct x; simpl; lia.
Qed.

Lemma all_running_none_waits (gs : list (goroutine Worker)) (g : nat) :
  length (running gs) = length gs -> nth_error gs g <> Some (GRecv Worker).
Proof.
  revert g. induction gs as [|x gs IH]; intros g Hlen.
  - destruct g; discriminate.
  - pose proof (running_le_length gs) as Hle.
    unfold running in *. simpl in Hlen. rewrite length_app in Hlen.
    destruct g as [|g]; simpl.
    + destruct x; simpl in Hlen; try discriminate; lia.
    + apply IH. destruct x; simpl in Hlen; lia.
Qed.

Lemma tickets_length (ws : list Worker) : length (tickets ws) = length ws.
Proof.
  unfold tickets. rewrite length_combine, length_seq. lia.
Qed.

(** X13.  Never more than [maxGoroutines] tasks are running.  In
    every state of a pool made by [New(n)], at most [n] calls of
    [Task] are in progress; every call of [Run] that has returned has
    had its item taken by a goroutine, so the items of the calls of
    [Run] made, each under the number of its call, are exactly those
    finished and those in progress; and while [n] tasks are in
    progress no call of [Run] can return (with [n = 0], none ever
    does). *)
Theorem at_most_n_tasks_running (n : Z) (s0 s : State Worker)
    (ls : list (label Worker)) :
  New Worker n = Some s0 -> run ls s0 = Some s ->
  length (running (goroutines s)) <= Z.to_nat n
  /\ length (submitted s)
     = length (finished (history s)) + length (running (goroutines s))
  /\ (length (running (goroutines s)) = Z.to_nat n ->
      forall w g, step (LRun w g) s = None)
  /\ submitted s = items ls
  /\ Permutation (tickets (items ls))
                 (finished (history s) ++ running (goroutines s))
  /\ Permutation (items ls)
                 (map snd (finished (history s))
                  ++ map snd (running (goroutines s))).
Proof.
  intros Hnew Hrun.
  pose proof (goroutines_run_Inv ls (New_Inv n Hnew) Hrun) as HI.
  pose proof (inv_length HI) as Hlen.
  pose proof (@New_submitted _ n s0 s ls Hnew Hrun) as Hsub.
  assert (Hperm : Permutation (tickets (items ls))
                    (finished (history s) ++ running (goroutines s))).
  { rewrite <- Hsub, <- (inv_begun HI). apply (inv_perm HI). }
  split; [rewrite <- Hlen; apply running_le_length|].
  split; [|split; [|split; [|split]]].
  - pose proof (Permutation_length (inv_perm HI)) as Hp.
    rewrite (inv_begun HI), tickets_length, length_app in Hp. exact Hp.
  - intros Hall w g. rewrite <- Hlen in Hall.
    pose proof (@all_running_none_waits _ g Hall) as Hg.
    simpl. destruct (shutdown s); auto. destruct (closed s); auto.
    destruct (nth_error (goroutines s) g) as [[| | |]|]; auto.
    now destruct Hg.
  - exact Hsub.
  - exact Hperm.
  - rewrite <- (tickets_snd (items ls)), <- map_app.
    now apply Permutation_map.
Qed.

(** X14.  Until [Shutdown] is called the pool keeps all its
    goroutines: the channel is open, the counter of the wait group is
    [n], every goroutine is inside its loop, running a task or
    waiting, and a waiting goroutine stays blocked. *)
Theorem goroutines_stay_until_Shutdown (n : Z) (s0 s : State Worker)
    (ls : list (label Worker)) :
  New Worker n = Some s0 -> run ls s0 = Some s -> shutdown s = CRun ->
  closed s = false
  /\ wg s = n
  /\ Forall (fun x => in_loop x = true) (goroutines s)
  /\ forall g, nth_error (goroutines s) g = Some (GRecv Worker) ->
       step (LGoroutine Worker g) s = None.
Proof.
  intros Hnew Hrun Hsh.
  pose proof (goroutines_run_Inv ls (New_Inv n Hnew) Hrun) as HI.
  pose proof (run_Open ls (New_Open n Hnew) Hrun) as [Hc Hl].
  rewrite Hsh in Hc. specialize (Hl Hc).
  assert (Hn : (0 <= n)%Z).
  { unfold New in Hnew. destruct (n <? 0)%Z eqn:E; [discriminate|].
    now apply Z.ltb_ge in E. }
  splits; auto.
  - rewrite (inv_wg HI), (pending_in_loop Hl), (inv_length HI). lia.
  - intros g Hg. simpl. now rewrite Hg, Hc.
Qed.

(** X15.  The wait group.  The counter stays between 0 and [n]; a
    goroutine that has left its loop can always call [Done], which
    never drives the counter below zero; and [Wait] returns exactly
    when [Shutdown] is waiting and every goroutine has ended. *)
Theorem Wait_returns_when_all_ended (n : Z) (s0 s : State Worker)
    (ls : list (label Worker)) :
  New Worker n = Some s0 -> run ls s0 = Some s ->
  (0 <= wg s <= n)%Z
  /\ (forall g, nth_error (goroutines s) g = Some (GLeft Worker) ->
        exists s', step (LGoroutine Worker g) s = Some s'
                   /\ wg s' = (wg s - 1)%Z /\ (0 <= wg s')%Z)
  /\ ((exists s', step (LWait Worker) s = Some s')
      <-> shutdown s = CWait /\ Forall (eq (GExit Worker)) (goroutines s)).
Proof.
  intros Hnew Hrun.
  pose proof (goroutines_run_Inv ls (New_Inv n Hnew) Hrun) as HI.
  pose proof (inv_wg HI) as Hwg. pose proof (inv_length HI) as Hlen.
  pose proof (pending_le_length (goroutines s)) as Hle.
  assert (Hn : (0 <= n)%Z).
  { unfold New in Hnew. destruct (n <? 0)%Z eqn:E; [discriminate|].
    now apply Z.ltb_ge in E. }
  split; [lia|]. split.
  - intros g Hg.
    assert (Hpos : 1 <= pending (goroutines s)).
    { clear - Hg. revert g Hg.
      induction (goroutines s) as [|x gs IH]; intros [|g] Hg; simpl in *;
        try discriminate.
      - injection Hg as ->. simpl. lia.
      - specialize (IH g Hg). lia. }
    simpl. rewrite Hg.
    replace (wg s - 1 <? 0)%Z with false by (symmetry; apply Z.ltb_ge; lia).
    eexists. split; [reflexivity|]. simpl. split; [reflexivity|lia].
  - split.
    + intros (s' & Hstep). simpl in Hstep.
      destruct (shutdown s); try discriminate.
      destruct (wg s =? 0)%Z eqn:E; [|discriminate].
      apply Z.eqb_eq in E. split; [reflexivity|].
      apply pending_zero. lia.
    + intros (Hsh & Hex). simpl. rewrite Hsh.
      rewrite Hwg, (exited_pending Hex). simpl. eexists. reflexivity.
Qed.

(** One goroutine, wherever it stands, ends once the channel is
    closed. *)
Lemma exit_one (x : goroutine Worker) (l1 l2 : list (goroutine Worker))
    (b : nat) (sub : list Worker) (h : list (event Worker)) :
  exists ls h',
    run ls (mkState true (Z.of_nat (alive x + b)) (l1 ++ x :: l2) CWait sub h)
    = Some (mkState true (Z.of_nat b) (l1 ++ GExit Worker :: l2) CWait sub h')
    /\ Forall (eq (LGoroutine Worker (length l1))) ls
    /\ finished h' = finished h ++ running_of x
    /\ begun h' = begun h.
Proof.
  assert (Hdone : forall h0,
            run [LGoroutine Worker (length l1)]
                (mkState true (Z.of_nat (S b)) (l1 ++ GLeft Worker :: l2)
                         CWait sub h0)
            = Some (mkState true (Z.of_nat b) (l1 ++ GExit Worker :: l2)
                            CWait sub h0)).
  { intros h0. cbn [run]. unfold step.
    cbn [goroutines closed wg shutdown submitted history].
    rewrite nth_error_middle, update_middle.
    replace (Z.of_nat (S b) - 1 <? 0)%Z with false
      by (symmetry; apply Z.ltb_ge; lia).
    now replace (Z.of_nat (S b) - 1)%Z with (Z.of_nat b) by lia. }
  assert (Hleave : forall h0,
            run [LGoroutine Worker (length l1)]
                (mkState true (Z.of_nat (S b)) (l1 ++ GRecv Worker :: l2)
                         CWait sub h0)
            = Some (mkState true (Z.of_nat (S b)) (l1 ++ GLeft Worker :: l2)
                            CWait sub h0)).
  { intros h0. cbn [run]. unfold step.
    cbn [goroutines closed wg shutdown submitted history].
    now rewrite nth_error_middle, update_middle. }
  destruct x as [|k w| |]; simpl alive; simpl running_of.
  - exists [LGoroutine Worker (length l1); LGoroutine Worker (length l1)], h.
    change [LGoroutine Worker (length l1); LGoroutine Worker (length l1)]
      with ([LGoroutine Worker (length l1)]
              ++ [LGoroutine Worker (length l1)]).
    rewrite goroutines_run_app, Hleave, Hdone.
    splits; rewrite ?app_nil_r; auto; repeat constructor.
  - exists [LGoroutine Worker (length l1); LGoroutine Worker (length l1);
            LGoroutine Worker (length l1)], (h ++ [EvEnd (length l1) k w]).
    change [LGoroutine Worker (length l1); LGoroutine Worker (length l1);
            LGoroutine Worker (length l1)]
      with ([LGoroutine Worker (length l1)]
              ++ [LGoroutine Worker (length l1)]
              ++ [LGoroutine Worker (length l1)]).
    rewrite goroutines_run_app.
    assert (Hend : run [LGoroutine Worker (length l1)]
                       (mkState true (Z.of_nat (1 + b))
                                (l1 ++ GTask k w :: l2) CWait sub h)
                   = Some (mkState true (Z.of_nat (S b))
                                   (l1 ++ GRecv Worker :: l2) CWait sub
                                   (h ++ [EvEnd (length l1) k w]))).
    { cbn [run]. unfold step.
      cbn [goroutines closed wg shutdown submitted history].
      now rewrite nth_error_middle, update_middle. }
    rewrite Hend, goroutines_run_app, Hleave, Hdone.
    splits; rewrite ?finished_app, ?begun_app; simpl; rewrite ?app_nil_r;
      auto; repeat constructor.
  - exists [LGoroutine Worker (length l1)], h. rewrite Hdone.
    splits; rewrite ?app_nil_r; auto; repeat constructor.
  - exists [], h. simpl. splits; rewrite ?app_nil_r; auto; repeat constructor.
Qed.

(** A label of a goroutine: not a call of [Run], nor [Shutdown]'s. *)
Definition of_goroutine (l : label Worker) : bool :=
  match l with LGoroutine _ _ => true | _ => false end.

(** Every goroutine ends once the channel is closed. *)
Lemma exit_all (l2 : list (goroutine Worker)) :
  forall (l1 : list (goroutine Worker)) (sub : list Worker)
         (h : list (event Worker)),
  exists ls h',
    run ls (mkState true (Z.of_nat (pending l2)) (l1 ++ l2) CWait sub h)
    = Some (mkState true 0 (l1 ++ repeat (GExit Worker) (length l2))
                    CWait sub h')
    /\ Forall (fun l => of_goroutine l = true) ls.
Proof.
  induction l2 as [|x l2 IH]; intros l1 sub h.
  - exists [], h. simpl. auto.
  - destruct (exit_one x l1 l2 (pending l2) sub h)
      as (ls1 & h1 & Hrun1 & Hall1 & _).
    destruct (IH (l1 ++ [GExit Worker]) sub h1) as (ls2 & h2 & Hrun2 & Hall2).
    exists (ls1 ++ ls2), h2. split.
    + rewrite goroutines_run_app. simpl pending. rewrite Hrun1.
      rewrite <- app_assoc in Hrun2. simpl in Hrun2. rewrite Hrun2.
      simpl. now rewrite <- app_assoc.
    + apply Forall_app. split; [|exact Hall2].
      eapply Forall_impl; [|exact Hall1]. now intros l <-.
Qed.

(** X16.  The pool cannot deadlock.  From every state of every run,
    [Shutdown] and the goroutines alone, with no further call of
    [Run], reach the state in which [Shutdown] has returned; the
    items handed over so far are the same, they are the items of
    the calls of [Run] made in the run, and each has then been
    executed once. *)
Theorem Shutdown_always_returns (n : Z) (s0 s : State Worker)
    (ls : list (label Worker)) :
  New Worker n = Some s0 -> run ls s0 = Some s ->
  exists ls' s',
    run ls' s = Some s'
    /\ (forall w g, ~ In (LRun w g) ls')
    /\ shutdown s' = CReturned
    /\ submitted s' = submitted s
    /\ Permutation (map snd (finished (history s'))) (submitted s)
    /\ submitted s = items ls
    /\ Permutation (map snd (finished (history s'))) (items ls).
Proof.
  intros Hnew Hrun.
  pose proof (@New_submitted _ n s0 s ls Hnew Hrun) as Hsub.
  cut (exists ls' s',
         run ls' s = Some s'
         /\ (forall w g, ~ In (LRun w g) ls')
         /\ shutdown s' = CReturned
         /\ submitted s' = submitted s
         /\ Permutation (map snd (finished (history s'))) (submitted s)).
  { intros (ls' & s' & H1 & H2 & H3 & H4 & H5).
    exists ls', s'. splits; auto. now rewrite <- Hsub. }
  clear Hsub.
  pose proof (goroutines_run_Inv ls (New_Inv n Hnew) Hrun) as HI.
  pose proof (run_Open ls (New_Open n Hnew) Hrun) as [Hc _].
  assert (Hfin : forall ls' s',
            run ls' s = Some s' -> shutdown s' = CReturned ->
            submitted s' = submitted s ->
            Permutation (map snd (finished (history s'))) (submitted s)).
  { intros ls' s' Hrun' Hsh' Hsub.
    pose proof (goroutines_run_Inv ls' HI Hrun') as HI'.
    pose proof (inv_perm HI') as Hp.
    rewrite (exited_running (inv_returned HI' Hsh')), app_nil_r in Hp.
    rewrite (inv_begun HI'), Hsub in Hp.
    rewrite <- (tickets_snd (submitted s)).
    apply Permutation_map. now symmetry. }
  assert (Hno : forall ls1 : list (label Worker),
            Forall (fun l => of_goroutine l = true) ls1 ->
            forall w g, ~ In (LRun w g) ls1).
  { intros ls1 H1 w g Hin. rewrite Forall_forall in H1.
    specialize (H1 _ Hin). discriminate H1. }
  pose proof (inv_wg HI) as Hwg.
  destruct s as [cl c gs sh sub h]. simpl in *. subst c.
  destruct (exit_all gs [] sub h) as (ls1 & h1 & Hrun1 & Hall1).
  simpl in Hrun1.
  destruct sh.
  - (* [Shutdown] not called yet *)
    subst cl. exists (LClose Worker :: ls1 ++ [LWait Worker]). eexists.
    split; [|split; [|split; [|split]]].
    + cbn [run]. unfold step at 1.
      cbn [goroutines closed wg shutdown submitted history].
      rewrite goroutines_run_app, Hrun1. reflexivity.
    + intros w g [Hin|Hin]; [discriminate|].
      apply in_app_or in Hin. destruct Hin as [Hin|[Hin|[]]];
        [now apply (Hno ls1 Hall1 w g)|discriminate].
    + reflexivity.
    + reflexivity.
    + eapply (Hfin (LClose Worker :: ls1 ++ [LWait Worker]));
        [|reflexivity|reflexivity].
      cbn [run]. unfold step at 1.
      cbn [goroutines closed wg shutdown submitted history].
      rewrite goroutines_run_app, Hrun1. reflexivity.
  - (* in [Wait] *)
    subst cl. exists (ls1 ++ [LWait Worker]). eexists.
    split; [|split; [|split; [|split]]].
    + rewrite goroutines_run_app, Hrun1. reflexivity.
    + intros w g Hin.
      apply in_app_or in Hin. destruct Hin as [Hin|[Hin|[]]];
        [now apply (Hno ls1 Hall1 w g)|discriminate].
    + reflexivity.
    + reflexivity.
    + eapply (Hfin (ls1 ++ [LWait Worker])); [|reflexivity|reflexivity].
      rewrite goroutines_run_app, Hrun1. reflexivity.
  - (* returned *)
    exists []. eexists.
    split; [reflexivity|]. split; [intros w g []|].
    split; [reflexivity|]. split; [reflexivity|].
    now apply (Hfin [] _ eq_refl).
Qed.

End Lifecycle.

(** Two items are running on the two goroutines. *)
Definition both_busy : list (label nat) := [LRun 10 0; LRun 20 1].

Lemma at_most_n_tasks_running_witness :
  length (running (goroutines (final both_busy))) <= 2
  /\ step (LRun 30 0) (final both_busy) = None.
Proof.
  assert (Hnew : New nat 2 = Some two_goroutines) by reflexivity.
  assert (Hrun : run both_busy two_goroutines = Some (final both_busy))
    by (vm_compute; reflexivity).
  destruct (@at_most_n_tasks_running nat 2 _ _ _ Hnew Hrun) as (H1 & _ & H2).
  split; [exact H1|]. apply H2. vm_compute. reflexivity.
Defined.

Lemma goroutines_stay_until_Shutdown_witness :
  wg (final [LRun 10 0; LGoroutine nat 0; LRun 20 1]) = 2%Z.
Proof.
  assert (Hnew : New nat 2 = Some two_goroutines) by reflexivity.
  assert (Hrun : run [LRun 10 0; LGoroutine nat 0; LRun 20 1] two_goroutines
                 = Some (final [LRun 10 0; LGoroutine nat 0; LRun 20 1]))
    by (vm_compute; reflexivity).
  assert (Hsh : shutdown (final [LRun 10 0; LGoroutine nat 0; LRun 20 1])
                = CRun) by (vm_compute; reflexivity).
  exact (proj1 (proj2 (@goroutines_stay_until_Shutdown nat 2 _ _ _ Hnew Hrun
                         Hsh))).
Defined.

Lemma Wait_returns_when_all_ended_witness :
  (0 <= wg (final [LClose nat; LGoroutine nat 0; LGoroutine nat 0]) <= 2)%Z.
Proof.
  assert (Hnew : New nat 2 = Some two_goroutines) by reflexivity.
  assert (Hrun : run [LClose nat; LGoroutine nat 0; LGoroutine nat 0]
                     two_goroutines
                 = Some (final [LClose nat; LGoroutine nat 0;
                                LGoroutine nat 0]))
    by (vm_compute; reflexivity).
  exact (proj1 (@Wait_returns_when_all_ended nat 2 _ _ _ Hnew Hrun)).
Defined.

Lemma Shutdown_always_returns_witness :
  exists ls' s',
    run ls' (final both_busy) = Some s'
    /\ shutdown s' = CReturned
    /\ Permutation (map snd (finished (history s'))) [10; 20].
Proof.
  assert (Hnew : New nat 2 = Some two_goroutines) by reflexivity.
  assert (Hrun : run both_busy two_goroutines = Some (final both_busy))
    by (vm_compute; reflexivity).
  destruct (@Shutdown_always_returns nat 2 _ _ _ Hnew Hrun)
    as (ls' & s' & H1 & _ & H2 & _ & _ & _ & H3).
  exists ls', s'. split; [exact H1|]. split; [exact H2|exact H3].
Defined.
End Work.
